(** * TSE querier: a shallow embedding of [querier.c]

    The querier tokenizes a query line, checks the placement of the
    operators "and" and "or", evaluates the query over an inverted index
    (AND = per-document minimum, OR = per-document sum) and ranks the
    documents with a positive score.

    The C program works on [counters_t] objects allocated on the C heap and
    mutated in place through [counters_iterate] callbacks.  The embedding keeps
    that shape: a heap of counters objects addressed by location, functions
    that take and return the heap, and callbacks that receive the [arg]
    pointer.

    [int] values are integers of [Z].  Keys and counts of a counters object
    are never negative, so the only arithmetic of the querier that can leave
    the range of [int] is the sum [old + count] of [union_helper].  Signed
    overflow is undefined in C; the sum is modelled as the usual build
    computes it, wrapping around ([int_add]), and [counters_set] then refuses
    the negative count.

    The functions of the embedding describe the runs in which every
    allocation succeeds.  The module [Oom] gives [evaluate_query] and
    [evaluate_andsequence] once more, with a [counters_new] that can return
    NULL. *)

From Stdlib Require Import ZArith Ascii String Sorted DecimalString.
From stdpp Require Import base option list gmap strings.

Local Open Scope Z_scope.

(** ** The [counters] module of libcs50

    A counters object is a linked list of (key, count) nodes. *)

Abbreviation counters_t := (list (Z * Z)).

(** Modelled from the spec: [counters.c] of libcs50 is not part of the
    querier's sources; this is the "sparse mapping DocumentID -> Score" of the
    data model, with the interface the querier calls.  [node_get] is the walk
    of [counters_get]: the count stored for [key], 0 when no node has it. *)
Fixpoint node_get (c : counters_t) (key : Z) : Z :=
  match c with
  | [] => 0
  | (k, n) :: rest => if k =? key then n else node_get rest key
  end.

Fixpoint node_mem (c : counters_t) (key : Z) : bool :=
  match c with
  | [] => false
  | (k, _) :: rest => (k =? key) || node_mem rest key
  end.

Fixpoint node_update (c : counters_t) (key count : Z) : counters_t :=
  match c with
  | [] => []
  | (k, n) :: rest =>
      if k =? key then (k, count) :: rest
      else (k, n) :: node_update rest key count
  end.

(** Modelled from the spec: the walk of [counters_set].  A negative key or a
    negative count is refused and leaves the object as it is; an existing
    node is overwritten in place; a new key gets a new node at the head of
    the list. *)
Definition node_set (c : counters_t) (key count : Z) : counters_t :=
  if (key <? 0) || (count <? 0) then c
  else if node_mem c key then node_update c key count
  else (key, count) :: c.

(** ** The heap of counters objects

    A location is an index into the heap; a cell is [Some c] while the object
    is live and [None] once [counters_delete] has freed it.  A pointer is a
    location or NULL ([None]). *)

Abbreviation loc := nat (only parsing).
Abbreviation ptr := (option nat) (only parsing).
Abbreviation heap := (list (option counters_t)).

Definition deref (h : heap) (p : ptr) : option counters_t :=
  match p with
  | None => None
  | Some a => match h !! a with Some (Some c) => Some c | _ => None end
  end.

(** Modelled from the spec: [counters_new] returns a fresh empty object. *)
Definition counters_new (h : heap) : heap * ptr :=
  (h ++ [Some []], Some (length h)).

(** Modelled from the spec: [counters_delete] frees the object (NULL is
    ignored). *)
Definition counters_delete (h : heap) (ctrs : ptr) : heap :=
  match ctrs with
  | None => h
  | Some a => <[a := None]> h
  end.

(** Modelled from the spec: [counters_get] is 0 for a NULL pointer and for a
    key that is not found. *)
Definition counters_get (h : heap) (ctrs : ptr) (key : Z) : Z :=
  match deref h ctrs with
  | Some c => node_get c key
  | None => 0
  end.

(** Modelled from the spec: [counters_set] on the object [ctrs] points to. *)
Definition counters_set (h : heap) (ctrs : ptr) (key count : Z) : heap :=
  match ctrs, deref h ctrs with
  | Some a, Some c => <[a := Some (node_set c key count)]> h
  | _, _ => h
  end.

(** Modelled from the spec: [counters_iterate] walks the nodes of [ctrs] from
    the head and calls [itemfunc] with each node's key and count.  [St] is
    what the callback may change through its [arg]: the heap for the
    callbacks that call [counters_set], a local variable for the two ranking
    callbacks.  The nodes walked are those of the object when the walk
    starts: the callbacks of this program never add a node to the object
    being walked and only overwrite the count of the key they are called
    with. *)
Definition counters_iterate {St : Type} (h : heap) (ctrs : ptr)
    (itemfunc : Z -> Z -> St -> St) (s : St) : St :=
  match deref h ctrs with
  | Some c => foldl (fun s kc => itemfunc kc.1 kc.2 s) s c
  | None => s
  end.

(** ** The index

    [index_t] maps a word to the location of its counters (docID -> count).
    Modelled from the spec: [index_find] is the "lookup(term) -> optional
    mapping" of the index collaborator; NULL when the word is not indexed. *)

Abbreviation index_t := (gmap string nat).

Definition index_find (index : index_t) (word : string) : ptr :=
  index !! word.

(** ** Query evaluation *)

(** [two_counters_t]: the pair handed to [counters_iterate] by
    [counters_intersect]. *)
Record two_counters_t := { tc_a : ptr; tc_b : ptr }.

Definition intersect_helper (pair : two_counters_t) (key count : Z)
    (h : heap) : heap :=
  let other := counters_get h (tc_b pair) key in
  let newCount := if count <? other then count else other in
  counters_set h (tc_a pair) key newCount.

(** The largest [int], and the sum of two [int] values as the machine
    computes it: modulo 2^32, in the range from -2^31 to 2^31 - 1. *)
Definition INT_MAX : Z := 2147483647.

Definition int_add (a b : Z) : Z :=
  (a + b + 2147483648) mod 4294967296 - 2147483648.

Definition union_helper (dest : ptr) (key count : Z) (h : heap) : heap :=
  let old := counters_get h dest key in
  counters_set h dest key (int_add old count).

Definition copy_helper (dest : ptr) (key count : Z) (h : heap) : heap :=
  counters_set h dest key count.

Definition zero_helper (dest : ptr) (key count : Z) (h : heap) : heap :=
  counters_set h dest key 0.

Definition counters_intersect (h : heap) (dest src : ptr) : heap :=
  match dest, src with
  | Some _, Some _ =>
      counters_iterate h dest
        (intersect_helper {| tc_a := dest; tc_b := src |}) h
  | _, _ => h
  end.

Definition counters_union (h : heap) (dest src : ptr) : heap :=
  match dest, src with
  | Some _, Some _ => counters_iterate h src (union_helper dest) h
  | _, _ => h
  end.

(** The body of the loop of [evaluate_andsequence] for a real word: the
    first word of a group creates the accumulator and copies the word's
    counters into it, every later word zeroes or intersects it. *)
Definition and_step (index : index_t) (word : string) (result : ptr)
    (h : heap) : heap * ptr :=
  let wordCtrs := index_find index word in
  match result with
  | None =>
      let '(h1, result1) := counters_new h in
      (match wordCtrs with
       | Some _ => counters_iterate h1 wordCtrs (copy_helper result1) h1
       | None => h1
       end, result1)
  | Some _ =>
      (match wordCtrs with
       | None => counters_iterate h result (zero_helper result) h
       | Some _ => counters_intersect h result wordCtrs
       end, result)
  end.

(** The loop of [evaluate_andsequence]: [ws] is [words] from position [i]
    on, so an empty [ws] is [i >= nwords]. *)
Fixpoint andseq_loop (index : index_t) (ws : list string) (i : nat)
    (result : ptr) (h : heap) : heap * ptr * nat :=
  match ws with
  | [] => (h, result, i)
  | w :: rest =>
      if String.eqb w "or" then (h, result, i)
      else if String.eqb w "and" then andseq_loop index rest (S i) result h
      else
        let '(h1, result1) := and_step index w result h in
        andseq_loop index rest (S i) result1 h1
  end.

(** [evaluate_andsequence] returns the heap, the group's counters and
    [*end_out]. *)
Definition evaluate_andsequence (index : index_t) (words : list string)
    (start : nat) (h : heap) : heap * ptr * nat :=
  let '(h1, result, i) := andseq_loop index (drop start words) start None h in
  let '(h2, result2) :=
    match result with
    | None => counters_new h1
    | Some _ => (h1, result)
    end in
  (h2, result2, i).

(** What one turn of the loop of [evaluate_query] does with the group's
    result: the first group replaces the empty [orResult], a later group is
    added to it and freed. *)
Definition or_step (h : heap) (orResult : ptr) (haveOrResult : bool)
    (andResult : ptr) : heap * ptr :=
  if haveOrResult then
    (counters_delete (counters_union h orResult andResult) andResult, orResult)
  else
    (counters_delete h orResult, andResult).

Definition word_at (words : list string) (i : nat) : string :=
  default EmptyString (words !! i).

(** The loop of [evaluate_query].  [i] grows by at least one in every turn,
    so [nwords] turns are enough (lemma [or_loop_fuel]). *)
Fixpoint or_loop (fuel : nat) (index : index_t) (words : list string)
    (i : nat) (orResult : ptr) (haveOrResult : bool) (h : heap)
    : heap * ptr :=
  match fuel with
  | O => (h, orResult)
  | S fuel' =>
      if (i <? length words)%nat then
        let '(h1, andResult, end_) := evaluate_andsequence index words i h in
        let '(h2, orResult') := or_step h1 orResult haveOrResult andResult in
        let i' :=
          if (end_ <? length words)%nat && String.eqb (word_at words end_) "or"
          then S end_ else end_ in
        or_loop fuel' index words i' orResult' true h2
      else (h, orResult)
  end.

(** [evaluate_query]: a NULL [index] or [words] gives a new empty counters.
    [counters_new] succeeds here, so the check of [orResult] never fires; it
    is part of [Oom.evaluate_query]. *)
Definition evaluate_query (index : option index_t)
    (words : option (list string)) (h : heap) : heap * ptr :=
  match index, words with
  | Some idx, Some ws =>
      let '(h0, orResult) := counters_new h in
      or_loop (length ws) idx ws 0 orResult false h0
  | _, _ => counters_new h
  end.

(** ** Ranking *)

Record docscore_t := { docID : Z; score : Z }.

Record collect_arg_t := { array : list docscore_t; index : nat }.

Definition count_nonzero (key count : Z) (n : Z) : Z :=
  if 0 <? count then n + 1 else n.

Definition collect_nonzero (key count : Z) (ca : collect_arg_t)
    : collect_arg_t :=
  if count <=? 0 then ca
  else {| array := <[index ca := {| docID := key; score := count |}]> (array ca);
          index := S (index ca) |}.

Definition cmp_docscore_desc (da db : docscore_t) : Z :=
  score db - score da.

(** libc's [qsort] is not part of the program.  It is modelled as an
    insertion sort that calls the comparison function and keeps elements
    that compare equal in the order they had in the array; C promises
    nothing about that order. *)
Fixpoint qsort_insert {A : Type} (compar : A -> A -> Z) (x : A)
    (sorted : list A) : list A :=
  match sorted with
  | [] => [x]
  | y :: rest =>
      if compar x y <=? 0 then x :: y :: rest
      else y :: qsort_insert compar x rest
  end.

Definition qsort {A : Type} (base : list A) (compar : A -> A -> Z) : list A :=
  foldr (qsort_insert compar) [] base.

(** What [rank_and_print] prints, without the URLs (they come from the page
    files): the error for a NULL parameter, "No documents match.", or the
    number of matches and the ranked (docID, score) pairs. *)
Inductive rank_output :=
| RankNullParameter
| NoDocumentsMatch
| Matches (n : Z) (docs : list docscore_t).

Definition rank_and_print (h : heap) (results : ptr) : rank_output :=
  match results with
  | None => RankNullParameter
  | Some _ =>
      let n := counters_iterate h results count_nonzero 0 in
      if n =? 0 then NoDocumentsMatch
      else
        let docs := replicate (Z.to_nat n) {| docID := 0; score := 0 |} in
        let arg := {| array := docs; index := 0 |} in
        let arg := counters_iterate h results collect_nonzero arg in
        Matches n (qsort (array arg) cmp_docscore_desc)
  end.

(** ** Tokenizing and validating a line

    A line is the C string [fgets] stored; characters are [unsigned char]
    values classified by <ctype.h> in the C locale. *)

Definition isupper (c : ascii) : bool :=
  let n := N_of_ascii c in ((65 <=? n) && (n <=? 90))%N.

Definition islower (c : ascii) : bool :=
  let n := N_of_ascii c in ((97 <=? n) && (n <=? 122))%N.

Definition isalpha (c : ascii) : bool := isupper c || islower c.

Definition isspace (c : ascii) : bool :=
  let n := N_of_ascii c in ((n =? 32) || ((9 <=? n) && (n <=? 13)))%N.

Definition tolower (c : ascii) : ascii :=
  if isupper c then ascii_of_N (N_of_ascii c + 32) else c.

Inductive diagnostic :=
| BadCharacter (c : ascii)
| CannotBeFirst (w : string)
| CannotBeLast (w : string)
| CannotBeAdjacent (w1 w2 : string)
| NullWords.

Inductive verdict :=
| Accept
| Reject (d : diagnostic).

(** First pass of [tokenize_and_validate]: lowercase the letters in place,
    stop at the first character that is neither a letter nor white space. *)
Fixpoint first_pass (line : string) : ascii + string :=
  match line with
  | EmptyString => inr EmptyString
  | String c rest =>
      if isalpha c then
        match first_pass rest with
        | inl bad => inl bad
        | inr rest' => inr (String (tolower c) rest')
        end
      else if isspace c then
        match first_pass rest with
        | inl bad => inl bad
        | inr rest' => inr (String c rest')
        end
      else inl c
  end.

(** [while (i < len && !isalpha(line[i])) i++]: what is left of the line. *)
Fixpoint skip_nonalpha (line : string) : string :=
  match line with
  | EmptyString => EmptyString
  | String c rest => if isalpha c then line else skip_nonalpha rest
  end.

(** [while (i < len && isalpha(line[i])) i++]: the letters from [start] to
    [end], and what is left of the line from [end] on. *)
Fixpoint consume_alpha (line : string) : string * string :=
  match line with
  | EmptyString => (EmptyString, EmptyString)
  | String c rest =>
      if isalpha c then
        let '(word, rest') := consume_alpha rest in (String c word, rest')
      else (EmptyString, line)
  end.

(** The second loop of [tokenize_and_validate].  [line] is the buffer from
    position [i] on and [words] the array of [len/2 + 1] slots.  The word
    stored in [words[count]] is the string that starts at [start] and ends at
    the NUL written over [line[end]]; that character is not a letter before
    and after the write.  Every turn consumes at least one character, so
    [len] turns are enough (lemma [token_loop_fuel]). *)
Fixpoint token_loop (fuel : nat) (line : string) (words : list string)
    (count : nat) : list string * nat :=
  match fuel with
  | O => (words, count)
  | S fuel' =>
      match skip_nonalpha line with
      | EmptyString => (words, count)
      | String c rest =>
          let '(word, rest') := consume_alpha (String c rest) in
          token_loop fuel' rest' (<[count := word]> words) (S count)
      end
  end.

Definition is_operator (word : string) : bool :=
  String.eqb word "and" || String.eqb word "or".

(** [for (i = 1; i < nwords; i++)] over [words[i-1]] and [words[i]]: [prev]
    is [words[i-1]] and [rest] is [words] from [i] on. *)
Fixpoint adjacent_loop (prev : string) (rest : list string) : verdict :=
  match rest with
  | [] => Accept
  | w :: rest' =>
      if is_operator prev && is_operator w
      then Reject (CannotBeAdjacent prev w)
      else adjacent_loop w rest'
  end.

Definition validate_tokens (words : option (list string)) : verdict :=
  match words with
  | None => Reject NullWords
  | Some [] => Accept
  | Some (w0 :: rest) =>
      if is_operator w0 then Reject (CannotBeFirst w0)
      else
        let wl := List.last rest w0 in
        if is_operator wl then Reject (CannotBeLast wl)
        else adjacent_loop w0 rest
  end.

(** [tokenize_and_validate] returns its verdict and [*words_out]; [*nwords_out]
    is the length of the list. *)
Definition tokenize_and_validate (line : string)
    : verdict * option (list string) :=
  let len := String.length line in
  match first_pass line with
  | inl bad => (Reject (BadCharacter bad), None)
  | inr line' =>
      let words := replicate (len / 2 + 1)%nat EmptyString in
      let '(words', count) := token_loop len line' words 0 in
      let words_out := take count words' in
      (validate_tokens (Some words_out), Some words_out)
  end.

(** ** The query loop *)

Inductive line_output :=
| Rejected (d : diagnostic)
| BlankLine
| Answer (query : list string) (ranked : rank_output).

(** One turn of the loop of [query_loop]: the line read by [fgets] is
    tokenized; a rejected or blank line is not evaluated. *)
Definition query_step (index : index_t) (line : string) (h : heap)
    : heap * line_output :=
  match tokenize_and_validate line with
  | (Reject d, _) => (h, Rejected d)
  | (Accept, words) =>
      match words with
      | Some [] | None => (h, BlankLine)
      | Some ws =>
          let '(h1, results) := evaluate_query (Some index) words h in
          let out := rank_and_print h1 results in
          (counters_delete h1 results, Answer ws out)
      end
  end.

Fixpoint query_loop (index : index_t) (lines : list string) (h : heap)
    : heap * list line_output :=
  match lines with
  | [] => (h, [])
  | line :: rest =>
      let '(h1, out) := query_step index line h in
      let '(h2, outs) := query_loop index rest h1 in
      (h2, out :: outs)
  end.

(** ** What the evaluation computes, object by object

    The definitions from here to the lemmas are not part of the program: they
    say what the loops above leave in one counters object, and are what the
    program is compared with. *)

Definition keys (c : counters_t) : list Z := c.*1.

(** A counters object as [counters_set] builds it: no key twice, no negative
    key or count. *)
Record counters_wf (c : counters_t) : Prop := {
  wf_nodup : NoDup (keys c);
  wf_nonneg : Forall (fun kc => 0 <= kc.1 /\ 0 <= kc.2) c
}.

Definition nonneg (c : counters_t) : Prop :=
  Forall (fun kc => 0 <= kc.1 /\ 0 <= kc.2) c.

(** The nodes of [dest] after [counters_iterate(src, dest, copy_helper)]. *)
Definition copy_nodes (dest src : counters_t) : counters_t :=
  foldl (fun c kc => node_set c kc.1 kc.2) dest src.

(** The nodes of [acc] after [counters_iterate(acc, acc, zero_helper)]. *)
Definition zero_nodes (acc : counters_t) : counters_t :=
  foldl (fun c kc => node_set c kc.1 0) acc acc.

(** The nodes of [acc] after [counters_intersect(acc, post)]. *)
Definition intersect_nodes (acc post : counters_t) : counters_t :=
  foldl (fun c kc =>
           node_set c kc.1
             (if kc.2 <? node_get post kc.1 then kc.2 else node_get post kc.1))
        acc acc.

(** The nodes of [dest] after [counters_union(dest, src)]. *)
Definition union_nodes (dest src : counters_t) : counters_t :=
  foldl (fun c kc => node_set c kc.1 (int_add (node_get c kc.1) kc.2)) dest src.

(** What [union_helper] leaves for a key that holds [old] when [count] is
    added, both in the range of [int]: the sum, unless it passes [INT_MAX];
    the [int] sum is then negative, [counters_set] refuses it and the old
    count stays. *)
Definition add_kept (old count : Z) : Z :=
  if old + count <=? INT_MAX then old + count else old.

(** The counters the index holds for a word, read through the heap. *)
Definition postings (h : heap) (index : index_t) (word : string)
    : option counters_t :=
  deref h (index_find index word).

(** The index has been loaded into [h]: every word's counters is a live
    object of [h]. *)
Definition index_loaded (h : heap) (index : index_t) : Prop :=
  map_Forall (fun _ a => is_Some (deref h (Some a))) index.

Definition and_nodes (post : string -> option counters_t) (word : string)
    (acc : option counters_t) : counters_t :=
  match acc, post word with
  | None, Some p => copy_nodes [] p
  | None, None => []
  | Some c, Some p => intersect_nodes c p
  | Some c, None => zero_nodes c
  end.

Fixpoint andseq_nodes (post : string -> option counters_t) (ws : list string)
    (i : nat) (acc : option counters_t) : option counters_t * nat :=
  match ws with
  | [] => (acc, i)
  | w :: rest =>
      if String.eqb w "or" then (acc, i)
      else if String.eqb w "and" then andseq_nodes post rest (S i) acc
      else andseq_nodes post rest (S i) (Some (and_nodes post w acc))
  end.

Definition group_nodes (post : string -> option counters_t)
    (words : list string) (start : nat) : counters_t * nat :=
  let '(acc, i) := andseq_nodes post (drop start words) start None in
  (default [] acc, i).

Fixpoint or_nodes (fuel : nat) (post : string -> option counters_t)
    (words : list string) (i : nat) (acc : counters_t) (have : bool)
    : counters_t :=
  match fuel with
  | O => acc
  | S fuel' =>
      if (i <? length words)%nat then
        let '(g, end_) := group_nodes post words i in
        let acc' := if have then union_nodes acc g else g in
        let i' :=
          if (end_ <? length words)%nat && String.eqb (word_at words end_) "or"
          then S end_ else end_ in
        or_nodes fuel' post words i' acc' true
      else acc
  end.

(** The nodes of the counters [evaluate_query] returns. *)
Definition query_nodes (post : string -> option counters_t)
    (words : list string) : counters_t :=
  or_nodes (length words) post words 0 [] false.

(** The score of a document after the AND-groups of [words] from position
    [i] on have been added, one after the other, to the score [tot]. *)
Fixpoint group_sum (fuel : nat) (post : string -> option counters_t)
    (words : list string) (i : nat) (tot : Z) (d : Z) : Z :=
  match fuel with
  | O => tot
  | S fuel' =>
      if (i <? length words)%nat then
        let '(g, end_) := group_nodes post words i in
        let i' :=
          if (end_ <? length words)%nat && String.eqb (word_at words end_) "or"
          then S end_ else end_ in
        group_sum fuel' post words i' (add_kept tot (node_get g d)) d
      else tot
  end.

(** The words of a query without the explicit "and" tokens. *)
Definition strip_and (ws : list string) : list string :=
  List.filter (fun w => negb (String.eqb w "and")) ws.

(** The words left when the loop of [evaluate_andsequence] stops: from the
    first "or" on. *)
Fixpoint group_rest (ws : list string) : list string :=
  match ws with
  | [] => []
  | w :: rest => if String.eqb w "or" then ws else group_rest rest
  end.

(** [if (i < nwords && strcmp(words[i], "or") == 0) i++] on the words left. *)
Definition after_or (ws : list string) : list string :=
  match ws with
  | [] => []
  | w :: rest => if String.eqb w "or" then rest else ws
  end.

(** The loop of [evaluate_query] on the words left instead of the position
    [i]. *)
Fixpoint or_suffix (fuel : nat) (index : index_t) (ws : list string)
    (orResult : ptr) (haveOrResult : bool) (h : heap) : heap * ptr :=
  match fuel with
  | O => (h, orResult)
  | S fuel' =>
      match ws with
      | [] => (h, orResult)
      | _ :: _ =>
          let '(h1, andResult, _) := evaluate_andsequence index ws 0 h in
          let '(h2, orResult') := or_step h1 orResult haveOrResult andResult in
          or_suffix fuel' index (after_or (group_rest ws)) orResult' true h2
      end
  end.

(** The last word is not "and". *)
Definition ends_with_word (ws : list string) : Prop :=
  List.last ws EmptyString <> "and"%string.

(** The heap and the [result] pointer of [evaluate_andsequence] while the
    group's accumulator holds [acc]: no object yet, or one object allocated
    right after [hh]. *)
Definition acc_heap (hh : heap) (acc : option counters_t) : heap * ptr :=
  match acc with
  | None => (hh, None)
  | Some c => (hh ++ [Some c], Some (length hh))
  end.

(** The entries with a positive count, in the order of the nodes. *)
Definition positive_nodes (c : counters_t) : list docscore_t :=
  map (fun kc => {| docID := kc.1; score := kc.2 |})
      (filter (fun kc => 0 < kc.2) c).

Definition rank_nodes (c : counters_t) : rank_output :=
  match positive_nodes c with
  | [] => NoDocumentsMatch
  | docs => Matches (Z.of_nat (length docs)) (qsort docs cmp_docscore_desc)
  end.

(** What [query_step] prints for a line, from the postings alone. *)
Definition line_answer (post : string -> option counters_t) (line : string)
    : line_output :=
  match tokenize_and_validate line with
  | (Reject d, _) => Rejected d
  | (Accept, Some (w :: ws)) =>
      Answer (w :: ws) (rank_nodes (query_nodes post (w :: ws)))
  | (Accept, _) => BlankLine
  end.

(** [a] is ranked before [b] only if its score is not smaller. *)
Definition by_score (a b : docscore_t) : Prop := score b <= score a.

(** ** What tokenizing computes *)

Fixpoint all_chars (p : ascii -> bool) (s : string) : bool :=
  match s with
  | EmptyString => true
  | String c rest => p c && all_chars p rest
  end.

Fixpoint map_string (f : ascii -> ascii) (s : string) : string :=
  match s with
  | EmptyString => EmptyString
  | String c rest => String (f c) (map_string f rest)
  end.

Definition starts_alpha (s : string) : bool :=
  match s with
  | EmptyString => false
  | String c _ => isalpha c
  end.

(** The characters a query line may hold. *)
Definition query_char (c : ascii) : bool := isalpha c || isspace c.

Definition lower_or_sep (c : ascii) : bool := negb (isalpha c) || islower c.

(** The words [token_loop] finds, as a list; [count] is its length. *)
Fixpoint line_tokens (fuel : nat) (line : string) : list string :=
  match fuel with
  | O => []
  | S fuel' =>
      match skip_nonalpha line with
      | EmptyString => []
      | String c rest =>
          let '(word, rest') := consume_alpha (String c rest) in
          word :: line_tokens fuel' rest'
      end
  end.

(** The spec's words: the tokens of a line are its maximal runs of
    alphabetic characters, and everything between them is a separator.
    [alphabetic_runs line ws]: [line] is separators, then the first word,
    then a rest that does not go on with a letter and holds the other
    words. *)
Inductive alphabetic_runs : string -> list string -> Prop :=
| runs_end (sep : string) :
    all_chars (fun c => negb (isalpha c)) sep = true ->
    alphabetic_runs sep []
| runs_word (sep word rest : string) (ws : list string) :
    all_chars (fun c => negb (isalpha c)) sep = true ->
    word <> EmptyString ->
    all_chars isalpha word = true ->
    starts_alpha rest = false ->
    alphabetic_runs rest ws ->
    alphabetic_runs (sep +:+ word +:+ rest) (word :: ws).

(** The spec's words: the three ways a token sequence breaks the grammar,
    each with the diagnostic that names the offending tokens. *)
Definition operator_first (ws : list string) (d : diagnostic) : Prop :=
  exists w rest, ws = w :: rest /\ is_operator w = true /\ d = CannotBeFirst w.

Definition operator_last (ws : list string) (d : diagnostic) : Prop :=
  exists init w, ws = init ++ [w] /\ is_operator w = true /\ d = CannotBeLast w.

Definition operators_adjacent (ws : list string) (d : diagnostic) : Prop :=
  exists pre w1 w2 post,
    ws = pre ++ w1 :: w2 :: post
    /\ is_operator w1 = true /\ is_operator w2 = true
    /\ d = CannotBeAdjacent w1 w2.

Definition violation (ws : list string) (d : diagnostic) : Prop :=
  operator_first ws d \/ operator_last ws d \/ operators_adjacent ws d.

(** ** The URL of a page file

    [get_url] reads the first line of the file [pageDirectory/docID].  The
    file system is a function from paths to contents; [PATH_MAX] is 4096 as
    on Linux. *)

Definition PATH_MAX : nat := 4096.

Definition newline : ascii := "010"%char.

(** The first [n] characters of a string. *)
Fixpoint string_take (n : nat) (s : string) : string :=
  match n, s with
  | S n', String c rest => String c (string_take n' rest)
  | _, _ => EmptyString
  end.

(** [snprintf(buf, size, "%s/%d", dir, id)]: the text, cut to [size - 1]
    characters. *)
Definition page_path (pageDirectory : string) (docID : Z) : string :=
  string_take (PATH_MAX - 1)
    (pageDirectory +:+ "/" +:+ NilZero.string_of_int (Z.to_int docID)).

(** The characters [fgets] stores: it stops after a newline, at the end of
    the file, or when [n] characters are stored. *)
Fixpoint fgets_chars (n : nat) (content : string) : string :=
  match n, content with
  | S n', String c rest =>
      if Ascii.eqb c newline then String c EmptyString
      else String c (fgets_chars n' rest)
  | _, _ => EmptyString
  end.

(** [fgets(buffer, size, fp)] at the start of a file: NULL at the end of the
    file, else at most [size - 1] characters. *)
Definition fgets (size : nat) (content : string) : option string :=
  match content with
  | EmptyString => None
  | _ => Some (fgets_chars (size - 1) content)
  end.

(** The C string held by a buffer: the characters before the first NUL. *)
Fixpoint c_str (buffer : string) : string :=
  match buffer with
  | EmptyString => EmptyString
  | String c rest =>
      if Ascii.eqb c zero then EmptyString else String c (c_str rest)
  end.

(** [if (len > 0 && buffer[len-1] == '\n') buffer[len-1] = '\0'] on the C
    string of the buffer. *)
Fixpoint strip_newline (s : string) : string :=
  match s with
  | EmptyString => EmptyString
  | String c EmptyString => if Ascii.eqb c newline then EmptyString else s
  | String c rest => String c (strip_newline rest)
  end.

(** [get_url]: [fs] gives the content of the file [fopen] opens for a path,
    or [None] when it cannot be opened. *)
Definition get_url (fs : string -> option string)
    (pageDirectory : option string) (docID : Z) : option string :=
  match pageDirectory with
  | None => None
  | Some dir =>
      if docID <=? 0 then None
      else
        match fs (page_path dir docID) with
        | None => None
        | Some content =>
            match fgets 1024 content with
            | None => None
            | Some buffer => Some (strip_newline (c_str buffer))
            end
        end
  end.

(** ** The command line and [main] *)

(** A call either ends the process with [exit(status)] or returns. *)
Inductive run (A : Type) : Type :=
  | Exit (status : Z)
  | Return (a : A).
Arguments Exit {A} status.
Arguments Return {A} a.






(** ** Evaluation when memory runs out

    [counters_new] returns NULL when its [mem_malloc] fails.  The functions
    above describe the runs in which it does not; here are
    [evaluate_andsequence] and [evaluate_query] with a [counters_new] that
    can fail, and with the check of [orResult] at the start of
    [evaluate_query].  The other functions of the counters module do nothing
    on a NULL pointer, as above.  [counters_set] is taken to find room for
    every new node. *)

Module Oom.

(** The answers of the allocator to the coming calls of [counters_new],
    [false] for a call that fails.  After the list every call succeeds. *)
Abbreviation allocator := (list bool).

Definition counters_new (m : allocator) (h : heap) : allocator * heap * ptr :=
  match m with
  | false :: m' => (m', h, None)
  | true :: m' => (m', h ++ [Some []], Some (length h))
  | [] => ([], h ++ [Some []], Some (length h))
  end.

Definition and_step (index : index_t) (word : string) (result : ptr)
    (m : allocator) (h : heap) : allocator * heap * ptr :=
  let wordCtrs := index_find index word in
  match result with
  | None =>
      let '(m1, h1, result1) := counters_new m h in
      (m1,
       match wordCtrs with
       | Some _ => counters_iterate h1 wordCtrs (copy_helper result1) h1
       | None => h1
       end, result1)
  | Some _ =>
      (m,
       match wordCtrs with
       | None => counters_iterate h result (zero_helper result) h
       | Some _ => counters_intersect h result wordCtrs
       end, result)
  end.

Fixpoint andseq_loop (index : index_t) (ws : list string) (i : nat)
    (result : ptr) (m : allocator) (h : heap) : allocator * heap * ptr * nat :=
  match ws with
  | [] => (m, h, result, i)
  | w :: rest =>
      if String.eqb w "or" then (m, h, result, i)
      else if String.eqb w "and" then andseq_loop index rest (S i) result m h
      else
        let '(m1, h1, result1) := and_step index w result m h in
        andseq_loop index rest (S i) result1 m1 h1
  end.

Definition evaluate_andsequence (index : index_t) (words : list string)
    (start : nat) (m : allocator) (h : heap) : allocator * heap * ptr * nat :=
  let '(m1, h1, result, i) :=
    andseq_loop index (drop start words) start None m h in
  let '(m2, h2, result2) :=
    match result with
    | None => counters_new m1 h1
    | Some _ => (m1, h1, result)
    end in
  (m2, h2, result2, i).

Fixpoint or_loop (fuel : nat) (index : index_t) (words : list string)
    (i : nat) (orResult : ptr) (haveOrResult : bool) (m : allocator)
    (h : heap) : allocator * heap * ptr :=
  match fuel with
  | O => (m, h, orResult)
  | S fuel' =>
      if (i <? length words)%nat then
        let '(m1, h1, andResult, end_) :=
          evaluate_andsequence index words i m h in
        let '(h2, orResult') := or_step h1 orResult haveOrResult andResult in
        let i' :=
          if (end_ <? length words)%nat && String.eqb (word_at words end_) "or"
          then S end_ else end_ in
        or_loop fuel' index words i' orResult' true m1 h2
      else (m, h, orResult)
  end.

(** [evaluate_query]: [exit(2)] when the first [counters_new] returns NULL;
    with a NULL [index] or [words], what [counters_new] returns. *)
Definition evaluate_query (index : option index_t)
    (words : option (list string)) (m : allocator) (h : heap)
    : run (allocator * heap * ptr) :=
  match index, words with
  | Some idx, Some ws =>
      match counters_new m h with
      | (m0, h0, Some r) =>
          Return (or_loop (length ws) idx ws 0 (Some r) false m0 h0)
      | (_, _, None) => Exit 2
      end
  | _, _ => Return (counters_new m h)
  end.

End Oom.

(** ** The echo of a query *)

(** What the loop [printf(" %s", words[i])] of [query_loop] prints after
    "Query:". *)
Fixpoint echo_words (ws : list string) : string :=
  match ws with
  | [] => EmptyString
  | w :: rest => String " " (w +:+ echo_words rest)
  end.

(** ** Scores of a query, word by word *)

(** The count of a word for a document: 0 when the word is not indexed or
    its counters do not hold the document. *)
Definition term_count (post : string -> option counters_t) (word : string)
    (d : Z) : Z :=
  match post word with
  | Some p => node_get p d
  | None => 0
  end.

(** The score of a document in the first AND-group of [ws]: the minimum of
    the counts of the group's words, 0 for a group without a word.  [cur] is
    the minimum over the words of the group read so far. *)
Fixpoint group_score (post : string -> option counters_t) (ws : list string)
    (cur : option Z) (d : Z) : Z :=
  match ws with
  | [] => default 0 cur
  | w :: rest =>
      if String.eqb w "or" then default 0 cur
      else if String.eqb w "and" then group_score post rest cur d
      else
        let n := term_count post w d in
        group_score post rest
          (Some (match cur with None => n | Some s => Z.min s n end)) d
  end.

(** The score of a document for a query: the scores of the AND-groups, added
    from left to right to [tot] as [union_helper] adds them ([add_kept]).
    [cur] is the minimum over the words of the current group read so far. *)
Fixpoint query_score (post : string -> option counters_t) (ws : list string)
    (tot : Z) (cur : option Z) (d : Z) : Z :=
  match ws with
  | [] => add_kept tot (default 0 cur)
  | w :: rest =>
      if String.eqb w "or"
      then query_score post rest (add_kept tot (default 0 cur)) None d
      else if String.eqb w "and" then query_score post rest tot cur d
      else
        let n := term_count post w d in
        query_score post rest tot
          (Some (match cur with None => n | Some s => Z.min s n end)) d
  end.

(** The sum of the scores of the AND-groups of a query, in [Z]. *)
Fixpoint query_sum (post : string -> option counters_t) (ws : list string)
    (cur : option Z) (d : Z) : Z :=
  match ws with
  | [] => default 0 cur
  | w :: rest =>
      if String.eqb w "or" then default 0 cur + query_sum post rest None d
      else if String.eqb w "and" then query_sum post rest cur d
      else
        let n := term_count post w d in
        query_sum post rest
          (Some (match cur with None => n | Some s => Z.min s n end)) d
  end.

(** Every counters of the index is well formed. *)
Definition postings_wf (post : string -> option counters_t) : Prop :=
  forall w p, post w = Some p -> counters_wf p.

(** Every count of the index is an [int]. *)
Definition postings_int (post : string -> option counters_t) : Prop :=
  forall w p, post w = Some p -> Forall (fun kc => kc.2 <= INT_MAX) p.

(** Whether a word list holds a word that is not an operator. *)
Definition has_term (ws : list string) : bool :=
  existsb (fun w => negb (is_operator w)) ws.

(** ** Words, lines and heaps *)

(** A word as the tokenizer produces it: lowercase letters, at least one. *)
Definition is_word (w : string) : Prop :=
  w <> EmptyString /\ all_chars islower w = true.

(** No character of [s] is [x]. *)
Definition no_char (x : ascii) (s : string) : bool :=
  all_chars (fun c => negb (Ascii.eqb c x)) s.


(** [k] freed cells, one live object, [m] freed cells. *)
Definition one_live (k : nat) (c : counters_t) (m : nat) : heap :=
  replicate k None ++ Some c :: replicate m None.

(** ** Example data

    The index of the spec's examples, [{a: {1:2, 2:1}, b: {1:3}}], and an
    index with two documents of equal score. *)

Definition example_heap : heap := [Some [(1, 2); (2, 1)]; Some [(1, 3)]].

Definition example_index : index_t :=
  {[ "a"%string := 0%nat; "b"%string := 1%nat ]}.

Definition tie_heap : heap := [Some [(3, 1)]; Some [(2, 1)]].

(** A page directory with the page file of document 3. *)
Definition example_fs (path : string) : option string :=
  if String.eqb path "pages/3"
  then Some ("http://example.org/"
             +:+ String newline ("1" +:+ String newline "<html>"))
  else None.

(** Proves [counters_wf] of a list of nodes given explicitly. *)
Ltac solve_wf :=
  split;
  [ unfold keys; cbn [fmap list_fmap fst];
    repeat (apply NoDup_cons; split;
            [rewrite ?elem_of_cons, elem_of_nil; lia|]);
    apply NoDup_nil_2
  | repeat constructor; simpl; lia ].

(** Unfolds a query over a word list given explicitly, one loop turn at a
    time. *)
Ltac run_query :=
  repeat (cbn -[and_step counters_union counters_delete String.eqb];
          unfold evaluate_andsequence, word_at, or_step, counters_new;
          change (String.eqb "and" "or") with false;
          change (String.eqb "and" "and") with true;
          repeat match goal with
                 | H : String.eqb _ _ = _ |- _ => rewrite !H
                 end;
          try match goal with
              | |- context [and_step ?i ?w ?r ?h] =>
                  destruct (and_step i w r h) as [? [?|]]
              end).

(** * Lemmas *)

(** ** Nodes of one counters object *)

Lemma node_mem_keys c k : node_mem c k = true <-> k ∈ keys c.
Proof.
  induction c as [|[k' n] c IH]; simpl.
  - split; [done | by intros ?%elem_of_nil].
  - rewrite orb_true_iff, IH, elem_of_cons, Z.eqb_eq. intuition congruence.
Qed.

Lemma node_mem_false c k : node_mem c k = false <-> k ∉ keys c.
Proof. rewrite <- node_mem_keys. destruct (node_mem c k); naive_solver. Qed.

Lemma node_get_absent c k : k ∉ keys c -> node_get c k = 0.
Proof.
  induction c as [|[k' n] c IH]; simpl; [done|].
  rewrite not_elem_of_cons. intros [Hne Hnin].
  destruct (Z.eqb_spec k' k); [congruence | auto].
Qed.

Lemma node_get_nonneg c k :
  Forall (fun kc => 0 <= kc.1 /\ 0 <= kc.2) c -> 0 <= node_get c k.
Proof.
  induction 1 as [|[k' n] c [_ Hn] _ IH]; simpl; [lia|].
  destruct (k' =? k); simpl in *; lia.
Qed.

Lemma node_update_keys c k n : keys (node_update c k n) = keys c.
Proof.
  induction c as [|[k' n'] c IH]; simpl; [done|].
  destruct (k' =? k); simpl; [done | by f_equal].
Qed.

Lemma node_update_app pre k n0 n post :
  k ∉ keys pre ->
  node_update (pre ++ (k, n0) :: post) k n = pre ++ (k, n) :: post.
Proof.
  induction pre as [|[k' n'] pre IH]; simpl.
  - intros _. by rewrite Z.eqb_refl.
  - rewrite not_elem_of_cons. intros [Hne Hnin].
    destruct (Z.eqb_spec k' k); [congruence|]. by rewrite IH.
Qed.

Lemma node_get_update c k n k' :
  node_get (node_update c k n) k' =
  if (k =? k') && node_mem c k then n else node_get c k'.
Proof.
  induction c as [|[k0 n0] c IH]; simpl.
  - by rewrite andb_false_r.
  - destruct (Z.eqb_spec k0 k) as [->|Hne]; simpl.
    + rewrite andb_true_r. by destruct (k =? k').
    + rewrite IH. destruct (Z.eqb_spec k k') as [->|]; simpl; [|done].
      destruct (Z.eqb_spec k0 k'); [congruence | done].
Qed.

Lemma node_get_set c k n k' :
  0 <= k -> 0 <= n ->
  node_get (node_set c k n) k' = if k =? k' then n else node_get c k'.
Proof.
  intros Hk Hn. unfold node_set.
  destruct (Z.ltb_spec k 0); [lia|]. destruct (Z.ltb_spec n 0); [lia|]. simpl.
  destruct (node_mem c k) eqn:Hm; simpl.
  - by rewrite node_get_update, Hm, andb_true_r.
  - done.
Qed.

Lemma node_set_wf c k n : counters_wf c -> counters_wf (node_set c k n).
Proof.
  intros [Hnd Hnn]. unfold node_set.
  destruct (Z.ltb_spec k 0); simpl; [by split|].
  destruct (Z.ltb_spec n 0); simpl; [by split|].
  destruct (node_mem c k) eqn:Hm.
  - split; [by rewrite node_update_keys|].
    clear Hnd Hm. induction Hnn as [|[k0 n0] c Hx Hc IH]; simpl; [constructor|].
    destruct (k0 =? k); constructor; simpl in *; auto; lia.
  - apply node_mem_false in Hm. split.
    + unfold keys. simpl. by constructor.
    + constructor; simpl; auto; lia.
Qed.

Lemma keys_app c1 c2 : keys (c1 ++ c2) = keys c1 ++ keys c2.
Proof. apply fmap_app. Qed.

Lemma overwrite_fold (g : Z * Z -> Z) l : forall pre,
  NoDup (keys (pre ++ l)) ->
  Forall (fun kc => 0 <= kc.1 /\ 0 <= g kc) l ->
  foldl (fun c kc => node_set c kc.1 (g kc)) (pre ++ l) l
  = pre ++ map (fun kc => (kc.1, g kc)) l.
Proof.
  induction l as [|[k n] l IH]; intros pre Hnd Hg; simpl; [done|].
  apply Forall_cons in Hg as [[Hk Hv] Hg]. simpl in Hk.
  assert (Hnin : k ∉ keys pre).
  { rewrite keys_app in Hnd. apply NoDup_app in Hnd as (_ & Hd & _).
    intros Hin. apply (Hd _ Hin). unfold keys. simpl. left. }
  assert (Hset : node_set (pre ++ (k, n) :: l) k (g (k, n))
                 = (pre ++ [(k, g (k, n))]) ++ l).
  { unfold node_set.
    destruct (Z.ltb_spec k 0); [lia|]. destruct (Z.ltb_spec (g (k, n)) 0); [lia|].
    simpl. replace (node_mem (pre ++ (k, n) :: l) k) with true.
    - rewrite node_update_app by done. by rewrite <- app_assoc.
    - symmetry. apply node_mem_keys. rewrite keys_app. apply elem_of_app.
      right. unfold keys. simpl. left. }
  rewrite Hset, IH, <- app_assoc; [done| |done].
  rewrite !keys_app in *. unfold keys in *. simpl in *.
  by rewrite <- app_assoc.
Qed.

Lemma zero_nodes_wf acc :
  counters_wf acc -> zero_nodes acc = map (fun kc => (kc.1, 0)) acc.
Proof.
  intros [Hnd Hnn]. unfold zero_nodes.
  apply (overwrite_fold (fun _ => 0) acc []); [done|].
  eapply Forall_impl; [exact Hnn|]. simpl. intros; lia.
Qed.

Lemma min_count_eq (a b : Z) : (if a <? b then a else b) = Z.min a b.
Proof. destruct (Z.ltb_spec a b); lia. Qed.

Lemma intersect_nodes_wf acc post :
  counters_wf acc -> nonneg post ->
  intersect_nodes acc post
  = map (fun kc => (kc.1, Z.min kc.2 (node_get post kc.1))) acc.
Proof.
  intros [Hnd Hnn] Hp. unfold intersect_nodes.
  pose proof (overwrite_fold
                (fun kc => if kc.2 <? node_get post kc.1 then kc.2
                           else node_get post kc.1) acc [] Hnd) as E.
  simpl in E. rewrite E.
  - apply map_ext. intros [k n]. simpl. by rewrite min_count_eq.
  - eapply Forall_impl; [exact Hnn|]. simpl. intros [k n] [Hk Hn]. simpl in *.
    pose proof (node_get_nonneg post k Hp). rewrite min_count_eq. lia.
Qed.

Lemma copy_nodes_wf dest src : counters_wf dest -> counters_wf (copy_nodes dest src).
Proof.
  unfold copy_nodes. revert dest.
  induction src as [|[k n] src IH]; intros dest Hd; simpl; [done|].
  by apply IH, node_set_wf.
Qed.

Lemma union_nodes_wf dest src : counters_wf dest -> counters_wf (union_nodes dest src).
Proof.
  unfold union_nodes. revert dest.
  induction src as [|[k n] src IH]; intros dest Hd; simpl; [done|].
  by apply IH, node_set_wf.
Qed.

Lemma int_add_range a b : -2147483648 <= int_add a b <= INT_MAX.
Proof.
  unfold int_add, INT_MAX.
  pose proof (Z.mod_pos_bound (a + b + 2147483648) 4294967296 ltac:(lia)). lia.
Qed.

Lemma int_add_fits a b :
  -2147483648 <= a + b <= INT_MAX -> int_add a b = a + b.
Proof.
  unfold int_add, INT_MAX. intros H. rewrite Z.mod_small; lia.
Qed.

Lemma int_add_over a b :
  0 <= a <= INT_MAX -> 0 <= b <= INT_MAX -> INT_MAX < a + b -> int_add a b < 0.
Proof.
  unfold int_add, INT_MAX. intros Ha Hb Hab.
  replace (a + b + 2147483648)
    with (a + b - 2147483648 + 1 * 4294967296) by lia.
  rewrite Z.mod_add by lia. rewrite Z.mod_small; lia.
Qed.

Lemma add_kept_zero a : add_kept a 0 = a.
Proof. unfold add_kept. rewrite Z.add_0_r. by destruct (a <=? INT_MAX). Qed.

Lemma add_kept_bounds a b :
  0 <= a <= INT_MAX -> 0 <= b -> a <= add_kept a b <= INT_MAX.
Proof. unfold add_kept. destruct (Z.leb_spec (a + b) INT_MAX); lia. Qed.

(** [counters_set] with the sum of [union_helper]. *)
Lemma node_set_int_add c k a b :
  0 <= a <= INT_MAX -> 0 <= b <= INT_MAX ->
  node_set c k (int_add a b)
  = if a + b <=? INT_MAX then node_set c k (a + b) else c.
Proof.
  intros Ha Hb. destruct (Z.leb_spec (a + b) INT_MAX).
  - rewrite int_add_fits; [done | unfold INT_MAX in *; lia].
  - pose proof (int_add_over a b Ha Hb ltac:(lia)) as Hneg.
    unfold node_set. destruct (Z.ltb_spec (int_add a b) 0); [|lia].
    by rewrite orb_true_r.
Qed.

Lemma node_get_set_le c k n k' :
  n <= INT_MAX -> node_get c k' <= INT_MAX ->
  node_get (node_set c k n) k' <= INT_MAX.
Proof.
  intros Hn Hc. unfold node_set.
  destruct ((k <? 0) || (n <? 0)); [done|].
  destruct (node_mem c k) eqn:Hm.
  - rewrite node_get_update. by destruct ((k =? k') && node_mem c k).
  - simpl. by destruct (k =? k').
Qed.

Lemma union_nodes_get src : forall dest k,
  counters_wf dest -> counters_wf src ->
  (forall j, node_get dest j <= INT_MAX) ->
  (forall j, node_get src j <= INT_MAX) ->
  node_get (union_nodes dest src) k
  = add_kept (node_get dest k) (node_get src k).
Proof.
  unfold union_nodes.
  induction src as [|[k0 n0] src IH]; intros dest k Hd [Hnd Hnn] Hdi Hsi; simpl.
  { by rewrite add_kept_zero. }
  apply NoDup_cons in Hnd as [Hnin Hnd].
  apply Forall_cons in Hnn as [[Hk0 Hn0] Hnn]. simpl in *.
  pose proof (node_get_nonneg dest k0 (wf_nonneg _ Hd)) as Hd0.
  pose proof (Hdi k0) as Hd1.
  pose proof (Hsi k0) as Hs0. rewrite Z.eqb_refl in Hs0.
  assert (Hsi' : forall j, node_get src j <= INT_MAX).
  { intros j. destruct (decide (j ∈ keys src)) as [Hin|Hout].
    - specialize (Hsi j).
      destruct (Z.eqb_spec k0 j) as [->|]; [exfalso; by apply Hnin | done].
    - rewrite node_get_absent by done. unfold INT_MAX. lia. }
  rewrite IH; [| by apply node_set_wf | by split | | done].
  2:{ intros j. apply node_get_set_le; [apply int_add_range | apply Hdi]. }
  rewrite node_set_int_add by lia. unfold add_kept at 2.
  destruct (Z.eqb_spec k0 k) as [->|Hne].
  - rewrite (node_get_absent src k) by done. rewrite add_kept_zero.
    destruct (Z.leb_spec (node_get dest k + n0) INT_MAX); [|done].
    rewrite node_get_set by lia. by rewrite Z.eqb_refl.
  - destruct (Z.leb_spec (node_get dest k0 + n0) INT_MAX); [|done].
    rewrite node_get_set by lia.
    destruct (Z.eqb_spec k0 k); [congruence | done].
Qed.

Lemma union_nodes_le src : forall dest k,
  (forall j, node_get dest j <= INT_MAX) ->
  node_get (union_nodes dest src) k <= INT_MAX.
Proof.
  unfold union_nodes.
  induction src as [|[k0 n0] src IH]; intros dest k Hdi; simpl; [done|].
  apply IH. intros j. apply node_get_set_le; [apply int_add_range | apply Hdi].
Qed.

Lemma copy_nodes_get src : forall dest k,
  counters_wf dest -> counters_wf src -> k ∈ keys src ->
  node_get (copy_nodes dest src) k = node_get src k.
Proof.
  unfold copy_nodes.
  induction src as [|[k0 n0] src IH]; intros dest k Hd [Hnd Hnn] Hin; simpl.
  - by apply elem_of_nil in Hin.
  - apply NoDup_cons in Hnd as [Hnin Hnd].
    apply Forall_cons in Hnn as [[Hk0 Hn0] Hnn]. simpl in *.
    unfold keys in Hin. simpl in Hin. apply elem_of_cons in Hin as [->|Hin].
    + rewrite Z.eqb_refl.
      assert (Hgen : forall l d, k0 ∉ keys l ->
        node_get (foldl (fun c kc => node_set c kc.1 kc.2) d l) k0 = node_get d k0).
      { clear. induction l as [|[k1 n1] l IH]; intros d Hn; simpl; [done|].
        unfold keys in Hn. simpl in Hn. apply not_elem_of_cons in Hn as [Hne Hn].
        rewrite IH by done. unfold node_set.
        destruct ((k1 <? 0) || (n1 <? 0)); [done|].
        destruct (node_mem d k1) eqn:Hm.
        - rewrite node_get_update. destruct (Z.eqb_spec k1 k0); [congruence|done].
        - simpl. destruct (Z.eqb_spec k1 k0); [congruence|done]. }
      rewrite Hgen by done. rewrite node_get_set by lia. by rewrite Z.eqb_refl.
    + destruct (Z.eqb_spec k0 k) as [->|]; [done|].
      apply IH; [by apply node_set_wf | by split | done].
Qed.

Lemma node_get_map (g : Z * Z -> Z) c k :
  k ∈ keys c ->
  node_get (map (fun kc => (kc.1, g kc)) c) k = g (k, node_get c k).
Proof.
  induction c as [|[k0 n0] c IH]; simpl.
  - by intros ?%elem_of_nil.
  - unfold keys. simpl. intros Hin.
    destruct (Z.eqb_spec k0 k) as [->|Hne]; [done|].
    apply elem_of_cons in Hin as [?|Hin]; [congruence | by apply IH].
Qed.

Lemma keys_map (g : Z * Z -> Z) c :
  keys (map (fun kc => (kc.1, g kc)) c) = keys c.
Proof. unfold keys. induction c as [|[??] c IH]; simpl; [done | by f_equal]. Qed.

(** ** Counters objects in the heap *)

Lemma deref_live (h : heap) r c : h !! r = Some (Some c) -> deref h (Some r) = Some c.
Proof. intros H. simpl. by rewrite H. Qed.

Lemma counters_get_live (h : heap) r c k :
  h !! r = Some (Some c) -> counters_get h (Some r) k = node_get c k.
Proof. intros H. unfold counters_get. by rewrite (deref_live _ _ _ H). Qed.

Lemma counters_set_live (h : heap) r c k n :
  h !! r = Some (Some c) ->
  counters_set h (Some r) k n = <[r := Some (node_set c k n)]> h.
Proof. intros H. unfold counters_set. by rewrite (deref_live _ _ _ H). Qed.

Lemma lookup_insert_live (h : heap) (r : loc) x c :
  h !! r = Some x -> <[r := Some c]> h !! r = Some (Some c).
Proof. intros H. apply list_lookup_insert_eq. by eapply lookup_lt_Some. Qed.

Lemma foldl_at (r : loc) (f : Z -> Z -> heap -> heap)
    (F : counters_t -> Z * Z -> counters_t) (P : heap -> Prop) :
  (forall h c kc, h !! r = Some (Some c) -> P h ->
                  f kc.1 kc.2 h = <[r := Some (F c kc)]> h) ->
  (forall h x, P h -> P (<[r := x]> h)) ->
  forall l h c, h !! r = Some (Some c) -> P h ->
    foldl (fun s kc => f kc.1 kc.2 s) h l = <[r := Some (foldl F c l)]> h.
Proof.
  intros Hf HP. induction l as [|kc l IH]; intros h c Hr Hh; simpl.
  - symmetry. by apply list_insert_id.
  - rewrite (Hf h c kc Hr Hh).
    rewrite (IH _ (F c kc)); [| by eapply lookup_insert_live | by apply HP].
    by rewrite list_insert_insert_eq.
Qed.

Lemma iterate_copy (h : heap) a r post c :
  h !! a = Some (Some post) -> h !! r = Some (Some c) ->
  counters_iterate h (Some a) (copy_helper (Some r)) h
  = <[r := Some (copy_nodes c post)]> h.
Proof.
  intros Ha Hr. unfold counters_iterate. rewrite (deref_live _ _ _ Ha).
  apply (foldl_at r (copy_helper (Some r))
           (fun c kc => node_set c kc.1 kc.2) (fun _ => True)); auto.
  intros h' c' kc Hc _. by apply counters_set_live.
Qed.

Lemma iterate_zero (h : heap) r acc :
  h !! r = Some (Some acc) ->
  counters_iterate h (Some r) (zero_helper (Some r)) h
  = <[r := Some (zero_nodes acc)]> h.
Proof.
  intros Hr. unfold counters_iterate. rewrite (deref_live _ _ _ Hr).
  apply (foldl_at r (zero_helper (Some r))
           (fun c kc => node_set c kc.1 0) (fun _ => True)); auto.
  intros h' c' kc Hc _. by apply counters_set_live.
Qed.

Lemma counters_intersect_live (h : heap) r a acc post :
  h !! r = Some (Some acc) -> h !! a = Some (Some post) -> a <> r ->
  counters_intersect h (Some r) (Some a)
  = <[r := Some (intersect_nodes acc post)]> h.
Proof.
  intros Hr Ha Hne. unfold counters_intersect, counters_iterate.
  rewrite (deref_live _ _ _ Hr).
  apply (foldl_at r (intersect_helper {| tc_a := Some r; tc_b := Some a |})
           (fun c kc => node_set c kc.1
              (if kc.2 <? node_get post kc.1 then kc.2 else node_get post kc.1))
           (fun h => h !! a = Some (Some post))); auto.
  - intros h' c' kc Hc Hp. unfold intersect_helper. simpl tc_a. simpl tc_b.
    rewrite (counters_get_live _ _ _ _ Hp). by apply counters_set_live.
  - intros h' x Hp. by rewrite list_lookup_insert_ne.
Qed.

Lemma counters_union_live (h : heap) o g dest src :
  h !! o = Some (Some dest) -> h !! g = Some (Some src) ->
  counters_union h (Some o) (Some g) = <[o := Some (union_nodes dest src)]> h.
Proof.
  intros Ho Hg. unfold counters_union, counters_iterate.
  rewrite (deref_live _ _ _ Hg).
  apply (foldl_at o (union_helper (Some o))
           (fun c kc => node_set c kc.1 (int_add (node_get c kc.1) kc.2))
           (fun _ => True)); auto.
  intros h' c' kc Hc _. unfold union_helper.
  rewrite (counters_get_live _ _ _ _ Hc). by apply counters_set_live.
Qed.

Lemma counters_get_absent (h : heap) a post d :
  h !! a = Some (Some post) -> d ∉ keys post -> counters_get h (Some a) d = 0.
Proof.
  intros Ha Hd. rewrite (counters_get_live _ _ _ _ Ha). by apply node_get_absent.
Qed.

Lemma map_overwrite_wf (g : Z * Z -> Z) c :
  counters_wf c -> (forall kc, kc ∈ c -> 0 <= g kc) ->
  counters_wf (map (fun kc => (kc.1, g kc)) c).
Proof.
  intros [Hnd Hnn] Hg. split; [by rewrite keys_map|].
  apply Forall_forall. intros [k n] Hin.
  apply list_elem_of_In, in_map_iff in Hin as ([k' n'] & [= <- <-] & Hin).
  apply list_elem_of_In in Hin. simpl.
  rewrite Forall_forall in Hnn. specialize (Hnn _ Hin). simpl in Hnn.
  split; [lia | by apply Hg].
Qed.

(** ** Evaluation with the index loaded

    With the counters of the index live in [h], evaluating a query on a heap
    that extends [h] leaves [h] as it is and builds, in new objects, the
    nodes given by [group_nodes] and [query_nodes]. *)

Lemma index_loaded_live (h : heap) (index : index_t) w a :
  index_loaded h index -> index !! w = Some a ->
  exists post, h !! a = Some (Some post) /\ postings h index w = Some post.
Proof.
  intros Hok Hw. destruct (Hok w a Hw) as [post Hpost].
  unfold postings, index_find. rewrite Hw. exists post. split; [|done].
  simpl in Hpost. destruct (h !! a) as [[c|]|]; congruence.
Qed.

Lemma index_loaded_app (h ext : heap) (index : index_t) :
  index_loaded h index -> index_loaded (h ++ ext) index.
Proof.
  intros Hl w a Hw. destruct (index_loaded_live _ _ _ _ Hl Hw) as (p & Ha & _).
  exists p. simpl. by rewrite lookup_app_l, Ha by (by eapply lookup_lt_Some).
Qed.

Lemma example_index_loaded : index_loaded example_heap example_index.
Proof.
  unfold index_loaded. apply map_Forall_insert_2; [by eexists|].
  apply map_Forall_singleton. by eexists.
Qed.

Lemma postings_absent (h : heap) (index : index_t) w :
  index !! w = None -> postings h index w = None.
Proof. intros Hw. unfold postings, index_find. by rewrite Hw. Qed.

Lemma snoc_insert_last (hh : heap) x y : <[length hh := y]> (hh ++ [x]) = hh ++ [y].
Proof.
  rewrite insert_app_r_alt by lia. by rewrite Nat.sub_diag.
Qed.

Lemma snoc_lookup_last (hh : heap) x : (hh ++ [x]) !! length hh = Some x.
Proof. rewrite lookup_app_r by lia. by rewrite Nat.sub_diag. Qed.

Section GroupRefinement.
Variable h : heap.
Variable index : index_t.
Hypothesis Hloaded : index_loaded h index.

Let post := postings h index.

Lemma and_step_refines word acc ext :
  and_step index word (acc_heap (h ++ ext) acc).2 (acc_heap (h ++ ext) acc).1
  = acc_heap (h ++ ext) (Some (and_nodes post word acc)).
Proof.
  unfold and_step, and_nodes, index_find.
  destruct (index !! word) as [a|] eqn:Hw.
  - destruct (index_loaded_live _ _ _ _ Hloaded Hw) as (p & Ha & Hp).
    subst post. rewrite Hp.
    assert (Hlt : (a < length h)%nat) by (by eapply lookup_lt_Some).
    destruct acc as [c|]; cbn [acc_heap fst snd counters_new].
    + rewrite (counters_intersect_live _ (length (h ++ ext)) a c p).
      * by rewrite snoc_insert_last.
      * apply snoc_lookup_last.
      * rewrite <- app_assoc. by rewrite lookup_app_l.
      * rewrite length_app. lia.
    + rewrite (iterate_copy _ a (length (h ++ ext)) p []).
      * by rewrite snoc_insert_last.
      * rewrite <- app_assoc. by rewrite lookup_app_l.
      * apply snoc_lookup_last.
  - subst post. rewrite (postings_absent _ _ _ Hw).
    destruct acc as [c|]; cbn [acc_heap fst snd counters_new]; [|done].
    rewrite (iterate_zero _ (length (h ++ ext)) c).
    + by rewrite snoc_insert_last.
    + apply snoc_lookup_last.
Qed.

Lemma andseq_loop_refines ws : forall i acc ext,
  andseq_loop index ws i (acc_heap (h ++ ext) acc).2 (acc_heap (h ++ ext) acc).1
  = (acc_heap (h ++ ext) (andseq_nodes post ws i acc).1,
     (andseq_nodes post ws i acc).2).
Proof.
  induction ws as [|w ws IH]; intros i acc ext; simpl.
  - by destruct acc.
  - destruct (String.eqb w "or"); [by destruct acc|].
    destruct (String.eqb w "and"); [apply IH|].
    rewrite and_step_refines. apply (IH (S i) (Some _)).
Qed.

Lemma evaluate_andsequence_refines words start ext :
  evaluate_andsequence index words start (h ++ ext)
  = ((h ++ ext) ++ [Some (group_nodes post words start).1],
     Some (length (h ++ ext)), (group_nodes post words start).2).
Proof.
  unfold evaluate_andsequence, group_nodes.
  pose proof (andseq_loop_refines (drop start words) start None ext) as E.
  simpl in E. rewrite E.
  destruct (andseq_nodes post (drop start words) start None) as [[c|] e]; done.
Qed.
End GroupRefinement.


Lemma insert_ext (h ext : heap) (r : nat) x :
  (length h <= r)%nat -> <[r := x]> (h ++ ext) = h ++ <[(r - length h)%nat := x]> ext.
Proof. intros. by apply insert_app_r_alt. Qed.

Section QueryRefinement.
Variable h : heap.
Variable index : index_t.
Hypothesis Hloaded : index_loaded h index.
Let post := postings h index.

Lemma or_loop_refines words fuel : forall i r acc have ext,
  (length h <= r)%nat -> (h ++ ext) !! r = Some (Some acc) ->
  exists ext' r',
    or_loop fuel index words i (Some r) have (h ++ ext) = (h ++ ext', Some r')
    /\ (length h <= r')%nat
    /\ (h ++ ext') !! r' = Some (Some (or_nodes fuel post words i acc have)).
Proof.
  induction fuel as [|fuel IH]; intros i r acc have ext Hge Hr; simpl.
  - by exists ext, r.
  - destruct (i <? length words)%nat; [|by exists ext, r].
    rewrite (evaluate_andsequence_refines h index Hloaded).
    fold post. destruct (group_nodes post words i) as [g e]. simpl.
    assert (Hlt : (r < length (h ++ ext))%nat) by (by eapply lookup_lt_Some).
    set (i' := if (e <? length words)%nat && (word_at words e =? "or")%string
               then S e else e).
    destruct have; unfold or_step.
    + rewrite (counters_union_live _ r (length (h ++ ext)) acc g);
        [| by rewrite lookup_app_l | apply snoc_lookup_last].
      simpl. rewrite insert_app_l by done.
      replace (length (h ++ ext)) with (length (<[r:=Some (union_nodes acc g)]> (h ++ ext)))
        by apply length_insert.
      rewrite snoc_insert_last. rewrite (insert_ext h ext r) by done.
      rewrite <- app_assoc.
      apply IH; [done|]. rewrite app_assoc, <- insert_ext by done.
      rewrite lookup_app_l by (by rewrite length_insert).
      by eapply lookup_insert_live.
    + simpl. rewrite insert_app_l by done.
      rewrite (insert_ext h ext r) by done. rewrite <- app_assoc.
      replace (length (h ++ ext))
        with (length (h ++ <[(r - length h)%nat := None]> ext))
        by (by rewrite !length_app, length_insert).
      apply IH.
      * rewrite length_app. lia.
      * rewrite app_assoc. apply snoc_lookup_last.
Qed.

Lemma evaluate_query_refines words ext :
  exists ext' r',
    evaluate_query (Some index) (Some words) (h ++ ext) = (h ++ ext', Some r')
    /\ (length h <= r')%nat
    /\ (h ++ ext') !! r' = Some (Some (query_nodes post words)).
Proof.
  unfold evaluate_query, counters_new, query_nodes. rewrite <- app_assoc.
  apply or_loop_refines.
  - rewrite length_app. lia.
  - rewrite app_assoc. apply snoc_lookup_last.
Qed.
End QueryRefinement.


(** ** Ranking *)

Lemma count_nonzero_fold c : forall n,
  foldl (fun n kc => count_nonzero kc.1 kc.2 n) n c
  = n + Z.of_nat (length (positive_nodes c)).
Proof.
  unfold positive_nodes.
  induction c as [|[k s] c IH]; intros n; simpl; [lia|].
  rewrite IH. unfold count_nonzero. rewrite filter_cons. simpl.
  destruct (Z.ltb_spec 0 s); destruct (decide (0 < s)); simpl; lia.
Qed.

Lemma collect_nonzero_fold dflt c : forall pre m,
  (length (positive_nodes c) <= m)%nat ->
  foldl (fun ca kc => collect_nonzero kc.1 kc.2 ca)
        {| array := pre ++ replicate m dflt; index := length pre |} c
  = {| array := pre ++ positive_nodes c
                ++ replicate (m - length (positive_nodes c)) dflt;
       index := length pre + length (positive_nodes c) |}.
Proof.
  unfold positive_nodes.
  induction c as [|[k s] c IH]; intros pre m Hm; simpl.
  - by rewrite Nat.sub_0_r, Nat.add_0_r.
  - rewrite filter_cons in *. simpl in *. unfold collect_nonzero at 2.
    destruct (Z.leb_spec s 0); destruct (decide (0 < s)); try lia.
    + by apply IH.
    + simpl in *. destruct m as [|m]; [lia|]. simpl.
      rewrite insert_app_r_alt by lia. rewrite Nat.sub_diag. simpl.
      replace (S (length pre)) with (length (pre ++ [{| docID := k; score := s |}]))
        by (rewrite length_app; simpl; lia).
      rewrite (cons_middle _ pre), app_assoc.
      rewrite IH by lia. rewrite length_app. simpl.
      f_equal; [by rewrite <- app_assoc | lia].
Qed.

Lemma qsort_insert_perm {A} (compar : A -> A -> Z) x l :
  qsort_insert compar x l ≡ₚ x :: l.
Proof.
  induction l as [|y l IH]; simpl; [done|].
  destruct (compar x y <=? 0); [done|].
  rewrite IH. apply Permutation_swap.
Qed.

Lemma qsort_perm {A} (compar : A -> A -> Z) l : qsort l compar ≡ₚ l.
Proof.
  unfold qsort. induction l as [|x l IH]; simpl; [done|].
  by rewrite qsort_insert_perm, IH.
Qed.

Lemma rank_and_print_live (h : heap) r c :
  h !! r = Some (Some c) -> rank_and_print h (Some r) = rank_nodes c.
Proof.
  intros Hr. unfold rank_and_print, rank_nodes, counters_iterate.
  rewrite (deref_live _ _ _ Hr), count_nonzero_fold, Z.add_0_l, Nat2Z.id.
  pose proof (collect_nonzero_fold {| docID := 0; score := 0 |} c []
                (length (positive_nodes c)) (le_n _)) as E.
  cbn [app length Nat.add] in E. rewrite E, Nat.sub_diag.
  cbn [replicate array]. rewrite app_nil_r.
  destruct (positive_nodes c) as [|d docs]; [done|].
  by destruct (Z.eqb_spec (Z.of_nat (length (d :: docs))) 0).
Qed.


(** C4.  The ranker keeps exactly the entries with a positive score: when
    no entry of the counters has one, [rank_and_print] prints
    "No documents match.", which is neither the NULL-parameter error nor a
    list; otherwise it prints a list that holds each entry with a positive
    score once and nothing else, so no entry with score 0. *)
Theorem rank_keeps_positive (h : heap) (r : loc) (c : counters_t) :
  h !! r = Some (Some c) ->
  (Forall (fun kc => kc.2 <= 0) c ->
     rank_and_print h (Some r) = NoDocumentsMatch)
  /\ (Exists (fun kc => 0 < kc.2) c ->
        exists docs,
          rank_and_print h (Some r) = Matches (Z.of_nat (length docs)) docs
          /\ docs ≡ₚ positive_nodes c
          /\ forall d s, {| docID := d; score := s |} ∈ docs <-> (d, s) ∈ c /\ 0 < s)
  /\ rank_and_print h (Some r) <> RankNullParameter.
Proof.
  intros Hr. rewrite (rank_and_print_live h r c Hr). unfold rank_nodes.
  assert (Hmem : forall d s,
    {| docID := d; score := s |} ∈ positive_nodes c <-> (d, s) ∈ c /\ 0 < s).
  { intros d s. unfold positive_nodes. rewrite list_elem_of_fmap. split.
    - intros ([k n] & [= -> ->] & Hin). by apply list_elem_of_filter in Hin as [? ?].
    - intros [Hin Hs]. exists (d, s). split; [done|]. by apply list_elem_of_filter. }
  split; [|split; [|by destruct (positive_nodes c)]].
  - intros Hall. destruct (positive_nodes c) as [|[d s] docs] eqn:Hpos; [done|].
    exfalso. destruct (Hmem d s) as [Hm _].
    destruct Hm as [Hin Hs]; [left|]. rewrite Forall_forall in Hall.
    specialize (Hall _ Hin). simpl in Hall. lia.
  - intros Hex. apply Exists_exists in Hex as ([k n] & Hin & Hn). simpl in Hn.
    destruct (positive_nodes c) as [|d0 docs] eqn:Hpos.
    + destruct (Hmem k n) as [_ Hm]. by apply elem_of_nil in Hm.
    + exists (qsort (d0 :: docs) cmp_docscore_desc).
      pose proof (qsort_perm cmp_docscore_desc (d0 :: docs)) as Hp.
      split; [by rewrite (Permutation_length Hp)|]. split; [done|].
      intros d s. rewrite Hp. apply Hmem.
Qed.

(** Counters {1:2, 2:0}: document 2 is left out. *)
Lemma rank_keeps_positive_witness :
  exists docs,
    rank_and_print [Some [(1, 2); (2, 0)]] (Some 0%nat)
    = Matches (Z.of_nat (length docs)) docs
    /\ docs ≡ₚ [{| docID := 1; score := 2 |}].
Proof.
  destruct (rank_keeps_positive [Some [(1, 2); (2, 0)]] 0 [(1, 2); (2, 0)] eq_refl)
    as (_ & Hpos & _).
  destruct Hpos as (docs & Hrank & Hperm & _).
  - apply Exists_cons_hd. simpl. lia.
  - by exists docs.
Defined.

Section Determinism.
Variable h : heap.
Variable index : index_t.
Hypothesis Hloaded : index_loaded h index.
Let post := postings h index.

Lemma query_step_refines line ext :
  exists ext', query_step index line (h ++ ext) = (h ++ ext', line_answer post line).
Proof.
  unfold query_step, line_answer.
  destruct (tokenize_and_validate line) as [[|d] words]; [|by exists ext].
  destruct words as [[|w ws]|]; [by exists ext | | by exists ext].
  destruct (evaluate_query_refines h index Hloaded (w :: ws) ext)
    as (ext' & r & -> & Hge & Hr).
  rewrite (rank_and_print_live _ _ _ Hr). simpl.
  rewrite insert_ext by done. by eexists.
Qed.

Lemma query_loop_refines lines : forall ext,
  exists ext', query_loop index lines (h ++ ext)
               = (h ++ ext', map (line_answer post) lines).
Proof.
  induction lines as [|line lines IH]; intros ext; simpl; [by exists ext|].
  destruct (query_step_refines line ext) as (ext1 & ->).
  destruct (IH ext1) as (ext2 & ->). by exists ext2.
Qed.
End Determinism.

(** C8.  With the index loaded, a line answered a second time, right away
    or after any other lines, gets the same output as the first time, and
    answering it leaves the counters of the index as they were. *)
Theorem query_deterministic (index : index_t) (h : heap) (line : string)
    (between : list string) :
  index_loaded h index ->
  (query_step index line
     (query_loop index between (query_step index line h).1).1).2
  = (query_step index line h).2
  /\ forall w, postings (query_step index line h).1 index w = postings h index w.
Proof.
  intros Hl.
  pose proof (query_step_refines h index Hl line []) as (ext1 & E1).
  rewrite app_nil_r in E1. rewrite E1. simpl.
  destruct (query_loop_refines h index Hl between ext1) as (ext2 & ->). simpl.
  destruct (query_step_refines h index Hl line ext2) as (ext3 & ->). simpl.
  split; [done|]. intros w. unfold postings, index_find.
  destruct (index !! w) as [a|] eqn:Hw; [|done].
  destruct (index_loaded_live _ _ _ _ Hl Hw) as (p & Ha & _).
  simpl. rewrite lookup_app_l; [done | by eapply lookup_lt_Some].
Qed.

(** "a or b" on the example index, asked again after two other queries. *)
Lemma query_deterministic_witness :
  (query_step example_index "a or b"
     (query_loop example_index ["b"; "zzz"]%string
        (query_step example_index "a or b" example_heap).1).1).2
  = Answer ["a"; "or"; "b"]%string
      (Matches 2 [{| docID := 1; score := 5 |}; {| docID := 2; score := 1 |}]).
Proof.
  rewrite (proj1 (query_deterministic example_index example_heap "a or b"
                    ["b"; "zzz"]%string example_index_loaded)).
  reflexivity.
Defined.


(** ** Explicit "and" tokens *)

Lemma group_rest_drop ws :
  (length (group_rest ws) <= length ws)%nat
  /\ group_rest ws = drop (length ws - length (group_rest ws)) ws.
Proof.
  induction ws as [|w ws [IHl IHd]]; simpl; [done|].
  destruct (String.eqb w "or"); simpl.
  - split; [lia|]. by rewrite Nat.sub_diag.
  - split; [lia|].
    replace (S (length ws) - length (group_rest ws))%nat
      with (S (length ws - length (group_rest ws))) by lia.
    done.
Qed.

Lemma andseq_loop_position (index : index_t) ws : forall i result (h : heap),
  andseq_loop index ws i result h
  = ((andseq_loop index ws 0 result h).1,
     (i + (length ws - length (group_rest ws)))%nat).
Proof.
  induction ws as [|w ws IH]; intros i result h; simpl.
  - f_equal. lia.
  - pose proof (group_rest_drop ws) as [Hl _].
    destruct (String.eqb w "or"); simpl.
    + f_equal. lia.
    + destruct (String.eqb w "and").
      * rewrite (IH (S i)), (IH 1%nat). simpl. f_equal. lia.
      * destruct (and_step index w result h) as [h1 r1].
        rewrite (IH (S i)), (IH 1%nat). simpl. f_equal. lia.
Qed.

Lemma evaluate_andsequence_suffix (index : index_t) words i (h : heap) :
  (i <= length words)%nat ->
  evaluate_andsequence index words i h
  = ((evaluate_andsequence index (drop i words) 0 h).1,
     (length words - length (group_rest (drop i words)))%nat).
Proof.
  intros Hi. unfold evaluate_andsequence. rewrite drop_0.
  rewrite (andseq_loop_position index (drop i words) i).
  rewrite (andseq_loop_position index (drop i words) 0).
  pose proof (group_rest_drop (drop i words)) as [Hl _].
  rewrite length_drop in *.
  destruct (andseq_loop index (drop i words) 0 None h) as [[h1 [r|]] e];
    simpl; f_equal; lia.
Qed.

Lemma or_loop_suffix (index : index_t) words fuel : forall i orResult have (h : heap),
  (i <= length words)%nat ->
  or_loop fuel index words i orResult have h
  = or_suffix fuel index (drop i words) orResult have h.
Proof.
  induction fuel as [|fuel IH]; intros i orResult have h Hi; simpl; [done|].
  destruct (Nat.ltb_spec i (length words)) as [Hlt|Hge].
  - destruct (drop i words) as [|w s] eqn:Hs.
    { apply (f_equal length) in Hs. rewrite length_drop in Hs. simpl in Hs. lia. }
    rewrite <- Hs. rewrite (evaluate_andsequence_suffix index words i h Hi).
    destruct (evaluate_andsequence index (drop i words) 0 h) as [[h1 andResult] e0].
    simpl.
    destruct (or_step h1 orResult have andResult) as [h2 orResult'].
    pose proof (group_rest_drop (drop i words)) as [Hl Hd].
    rewrite length_drop in Hl, Hd. rewrite drop_drop in Hd.
    set (rest := group_rest (drop i words)) in *.
    set (e := (length words - length rest)%nat).
    assert (He : drop e words = rest).
    { rewrite Hd. f_equal. unfold e. lia. }
    destruct rest as [|w' r] eqn:Hrest.
    + simpl in e. assert (e = length words) as -> by (unfold e; lia).
      rewrite Nat.ltb_irrefl. simpl. rewrite IH by lia. by rewrite drop_all.
    + assert (Hlt' : (e < length words)%nat) by (unfold e; simpl; lia).
      destruct (Nat.ltb_spec e (length words)); [|lia]. simpl.
      assert (Hw : word_at words e = w').
      { unfold word_at. rewrite <- (Nat.add_0_r e), <- lookup_drop, He. done. }
      rewrite Hw. destruct (String.eqb w' "or").
      * rewrite IH by lia. f_equal.
        replace (S e) with (e + 1)%nat by lia.
        rewrite <- (drop_drop words 1 e), He. done.
      * rewrite IH by lia. by rewrite He.
  - rewrite drop_ge by lia. done.
Qed.

Lemma andseq_loop_strip (index : index_t) ws : forall i j result (h : heap),
  (andseq_loop index (strip_and ws) i result h).1
  = (andseq_loop index ws j result h).1.
Proof.
  induction ws as [|w ws IH]; intros i j result h; simpl; [done|].
  destruct (String.eqb w "and") eqn:Hand; simpl.
  - apply String.eqb_eq in Hand as ->. simpl. apply IH.
  - rewrite Hand. destruct (String.eqb w "or"); [done|].
    destruct (and_step index w result h) as [h1 r1]. apply IH.
Qed.

Lemma group_rest_strip ws : group_rest (strip_and ws) = strip_and (group_rest ws).
Proof.
  induction ws as [|w ws IH]; simpl; [done|].
  destruct (String.eqb w "and") eqn:Hand; simpl.
  - apply String.eqb_eq in Hand as ->. simpl. exact IH.
  - destruct (String.eqb w "or") eqn:Hor; simpl; [by rewrite Hand | exact IH].
Qed.

Lemma group_rest_head ws w rest :
  group_rest ws = w :: rest -> String.eqb w "or" = true.
Proof.
  induction ws as [|w0 ws IH]; simpl; [done|].
  destruct (String.eqb w0 "or") eqn:Hor; [|exact IH].
  by intros [= <- _].
Qed.

Lemma after_or_strip ws :
  after_or (strip_and (group_rest ws)) = strip_and (after_or (group_rest ws)).
Proof.
  destruct (group_rest ws) as [|w rest] eqn:Hg; [done|].
  pose proof (group_rest_head ws w rest Hg) as Hor.
  simpl. rewrite Hor. apply String.eqb_eq in Hor as ->. done.
Qed.

Lemma after_group_shorter ws :
  ws <> [] -> (length (after_or (group_rest ws)) < length ws)%nat.
Proof.
  destruct ws as [|w ws]; [done|]. intros _. simpl.
  destruct (String.eqb w "or") eqn:Hor; simpl.
  - rewrite Hor. lia.
  - pose proof (group_rest_drop ws) as [Hl _].
    destruct (group_rest ws) as [|w' r]; simpl in *; [lia|].
    destruct (String.eqb w' "or"); simpl; lia.
Qed.

Lemma last_group_rest ws d :
  group_rest ws = [] \/ List.last (group_rest ws) d = List.last ws d.
Proof.
  induction ws as [|w ws IH]; simpl; [by left|].
  destruct (String.eqb w "or"); [by right|].
  destruct ws as [|w' ws']; [by left|].
  destruct IH as [?|IH]; [by left | by right].
Qed.

Lemma ends_with_word_after ws :
  ends_with_word ws -> ends_with_word (after_or (group_rest ws)).
Proof.
  unfold ends_with_word. intros Hws.
  destruct (last_group_rest ws EmptyString) as [->|Hl]; [done|].
  rewrite <- Hl in Hws.
  destruct (group_rest ws) as [|w r]; [done|].
  cbn [after_or]. destruct (String.eqb w "or"); [|done].
  destruct r as [|w' r]; [done | exact Hws].
Qed.

Lemma strip_and_nil ws : ends_with_word ws -> strip_and ws = [] -> ws = [].
Proof.
  unfold ends_with_word.
  induction ws as [|w ws IH]; [done|]. simpl.
  destruct (String.eqb w "and") eqn:Hand; simpl; [|done].
  apply String.eqb_eq in Hand as ->. intros Hl Hs.
  destruct ws as [|w' ws]; [done|]. by specialize (IH Hl Hs).
Qed.

Lemma or_suffix_strip (index : index_t) fuel1 : forall fuel2 ws orResult have (h : heap),
  (length ws <= fuel1)%nat -> (length (strip_and ws) <= fuel2)%nat ->
  ends_with_word ws ->
  or_suffix fuel1 index ws orResult have h
  = or_suffix fuel2 index (strip_and ws) orResult have h.
Proof.
  induction fuel1 as [|fuel1 IH]; intros fuel2 ws orResult have h H1 H2 Hend.
  - destruct ws; simpl in H1; [|lia]. by destruct fuel2.
  - destruct ws as [|w ws]; [by destruct fuel2|].
    destruct (strip_and (w :: ws)) as [|w' ws'] eqn:Hs.
    { by apply strip_and_nil in Hs. }
    destruct fuel2 as [|fuel2]; [simpl in H2; lia|].
    cbn [or_suffix]. rewrite <- Hs.
    assert (Hgroup : (evaluate_andsequence index (strip_and (w :: ws)) 0 h).1
                     = (evaluate_andsequence index (w :: ws) 0 h).1).
    { unfold evaluate_andsequence. rewrite !drop_0.
      pose proof (andseq_loop_strip index (w :: ws) 0 0 None h) as E.
      destruct (andseq_loop index (strip_and (w :: ws)) 0 None h) as [[h1 r1] e1].
      destruct (andseq_loop index (w :: ws) 0 None h) as [[h1' r1'] e1'].
      simpl in E. injection E as -> ->. by destruct r1'. }
    destruct (evaluate_andsequence index (strip_and (w :: ws)) 0 h) as [[h1 r1] e1].
    destruct (evaluate_andsequence index (w :: ws) 0 h) as [[h1' r1'] e1'].
    simpl in Hgroup. injection Hgroup as -> ->.
    destruct (or_step h1' orResult have r1') as [h2 orResult'].
    rewrite group_rest_strip, after_or_strip.
    apply IH.
    + pose proof (after_group_shorter (w :: ws) ltac:(done)). simpl in *. lia.
    + rewrite <- after_or_strip, <- group_rest_strip.
      pose proof (after_group_shorter (strip_and (w :: ws))) as Hsh.
      rewrite Hs in Hsh |- *. specialize (Hsh ltac:(done)).
      simpl in *. lia.
    + by apply ends_with_word_after.
Qed.

(** C7.  The queries "a b" and "a and b" are evaluated to the same heap and
    the same counters, for every index and every two words.  More generally
    an explicit "and" does nothing but separate two words: a query whose
    last word is not "and" is evaluated as the query without its "and"
    tokens. *)
Theorem implicit_and (index : index_t) (h : heap) :
  (forall a b : string,
     evaluate_query (Some index) (Some [a; b]) h
     = evaluate_query (Some index) (Some [a; "and"%string; b]) h)
  /\ (forall ws : list string,
        ends_with_word ws ->
        evaluate_query (Some index) (Some ws) h
        = evaluate_query (Some index) (Some (strip_and ws)) h).
Proof.
  split.
  - intros a b. unfold evaluate_query.
    destruct (String.eqb a "or") eqn:Ha_or;
      destruct (String.eqb a "and") eqn:Ha_and;
      try (apply String.eqb_eq in Ha_or, Ha_and; congruence);
      destruct (String.eqb b "or") eqn:Hb_or;
      destruct (String.eqb b "and") eqn:Hb_and;
      try (apply String.eqb_eq in Hb_or, Hb_and; congruence);
      run_query.
    all: reflexivity.
  - intros ws Hend. unfold evaluate_query, counters_new.
    rewrite !or_loop_suffix by lia. rewrite !drop_0.
    by apply or_suffix_strip.
Qed.

(** ** Termination of the loop of [evaluate_query] *)

Lemma andseq_loop_end (index : index_t) ws : forall i result (h : heap),
  let e := (andseq_loop index ws i result h).2 in
  (i <= e <= i + length ws)%nat
  /\ ((e < i + length ws)%nat -> ws !! (e - i)%nat = Some "or"%string).
Proof.
  induction ws as [|w ws IH]; intros i result h; simpl.
  - split; lia.
  - destruct (String.eqb w "or") eqn:Hor; simpl.
    + split; [lia|]. intros _. rewrite Nat.sub_diag. simpl.
      by apply String.eqb_eq in Hor as ->.
    + assert (Hstep : forall r1 h1,
        let e := (andseq_loop index ws (S i) r1 h1).2 in
        (i <= e <= i + S (length ws))%nat
        /\ ((e < i + S (length ws))%nat -> (w :: ws) !! (e - i)%nat = Some "or"%string)).
      { intros r1 h1. destruct (IH (S i) r1 h1) as [Hb Hw]. simpl. split; [lia|].
        intros Hlt. replace (_ - i)%nat with (S ((andseq_loop index ws (S i) r1 h1).2 - S i)) by lia.
        simpl. apply Hw. lia. }
      destruct (String.eqb w "and"); [apply Hstep|].
      destruct (and_step index w result h) as [h1 r1]. apply Hstep.
Qed.

Lemma evaluate_andsequence_end (index : index_t) words start (h : heap) :
  (start <= length words)%nat ->
  let e := (evaluate_andsequence index words start h).2 in
  (start <= e <= length words)%nat
  /\ ((e < length words)%nat -> word_at words e = "or"%string).
Proof.
  intros Hs. unfold evaluate_andsequence.
  pose proof (andseq_loop_end index (drop start words) start None h) as He.
  destruct (andseq_loop index (drop start words) start None h) as [[h1 r1] e].
  simpl in He. destruct He as [Hb Hw]. rewrite length_drop in *.
  destruct (match r1 with Some _ => _ | None => _ end) as [h2 r2]. simpl.
  split; [lia|]. intros Hlt. unfold word_at.
  rewrite lookup_drop in Hw. replace (start + (e - start))%nat with e in Hw by lia.
  rewrite Hw; [done | lia].
Qed.

Lemma or_loop_fuel (index : index_t) words fuel1 : forall fuel2 i orResult have (h : heap),
  (length words - i <= fuel1)%nat -> (length words - i <= fuel2)%nat ->
  or_loop fuel1 index words i orResult have h
  = or_loop fuel2 index words i orResult have h.
Proof.
  induction fuel1 as [|fuel1 IH]; intros fuel2 i orResult have h H1 H2.
  - destruct fuel2 as [|fuel2]; simpl; [done|].
    destruct (Nat.ltb_spec i (length words)); [lia | done].
  - destruct fuel2 as [|fuel2]; simpl;
      destruct (Nat.ltb_spec i (length words)); try done; try lia.
    pose proof (evaluate_andsequence_end index words i h ltac:(lia)) as He.
    destruct (evaluate_andsequence index words i h) as [[h1 andResult] e].
    simpl in He. destruct He as [Hb Hw].
    destruct (or_step h1 orResult have andResult) as [h2 orResult'].
    apply IH.
    + destruct (Nat.ltb_spec e (length words)); simpl; [|lia].
      rewrite Hw by done. simpl. lia.
    + destruct (Nat.ltb_spec e (length words)); simpl; [|lia].
      rewrite Hw by done. simpl. lia.
Qed.

Lemma evaluate_andsequence_some (index : index_t) words start (h : heap) :
  is_Some (evaluate_andsequence index words start h).1.2.
Proof.
  unfold evaluate_andsequence.
  destruct (andseq_loop index (drop start words) start None h) as [[h1 [r|]] e];
    simpl; eauto.
Qed.


(** ** Evaluation when memory runs out

    While no allocation fails, the functions of [Oom] do what the functions
    of the embedding do. *)








(** ** Tokenizing *)

Lemma append_cons c s t : String c s +:+ t = String c (s +:+ t).
Proof. reflexivity. Qed.

Lemma append_empty_l s : EmptyString +:+ s = s.
Proof. reflexivity. Qed.

Lemma append_empty_r s : s +:+ EmptyString = s.
Proof. induction s as [|c s IH]; [done|]. by rewrite append_cons, IH. Qed.

Lemma skip_nonalpha_spec line :
  exists sep, line = sep +:+ skip_nonalpha line
    /\ all_chars (fun c => negb (isalpha c)) sep = true
    /\ (skip_nonalpha line = EmptyString \/ starts_alpha (skip_nonalpha line) = true).
Proof.
  induction line as [|c rest (sep & E & Hs & Hr)]; simpl.
  - exists EmptyString. auto.
  - destruct (isalpha c) eqn:Hc.
    + exists EmptyString. simpl. rewrite Hc. auto.
    + exists (String c sep). split; [rewrite append_cons; by f_equal|].
      split; [simpl; by rewrite Hc | done].
Qed.

Lemma consume_alpha_spec line :
  line = (consume_alpha line).1 +:+ (consume_alpha line).2
  /\ all_chars isalpha (consume_alpha line).1 = true
  /\ starts_alpha (consume_alpha line).2 = false
  /\ (starts_alpha line = true -> (consume_alpha line).1 <> EmptyString).
Proof.
  induction line as [|c rest (E & Ha & Hr & _)]; simpl; [done|].
  destruct (isalpha c) eqn:Hc.
  - destruct (consume_alpha rest) as [w r]. simpl in *.
    split; [rewrite append_cons; by f_equal|]. rewrite Hc, Ha. done.
  - simpl. rewrite Hc. done.
Qed.

Lemma length_append (s1 s2 : string) :
  String.length (s1 +:+ s2) = (String.length s1 + String.length s2)%nat.
Proof.
  induction s1 as [|c s1 IH]; [done|]. rewrite append_cons. simpl. by f_equal.
Qed.

Lemma line_tokens_runs fuel : forall line,
  (String.length line <= fuel)%nat ->
  alphabetic_runs line (line_tokens fuel line).
Proof.
  induction fuel as [|fuel IH]; intros line Hlen.
  - destruct line; simpl in *; [|lia]. by constructor.
  - cbn [line_tokens].
    destruct (skip_nonalpha_spec line) as (sep & E & Hsep & Hst).
    destruct (skip_nonalpha line) as [|c rest] eqn:Hskip.
    + rewrite E, append_empty_r. by constructor.
    + destruct Hst as [?|Hst]; [done|].
      destruct (consume_alpha_spec (String c rest)) as (Ew & Hw & Hr & Hne).
      specialize (Hne Hst).
      destruct (consume_alpha (String c rest)) as [word rest'] eqn:Hcons.
      cbn [fst snd] in *. rewrite E, Ew.
      constructor; auto. apply IH.
      assert (Hl : String.length line
                   = (String.length sep + (String.length word + String.length rest'))%nat)
        by (by rewrite E, Ew, !length_append).
      destruct word; [done|]. simpl in Hl. lia.
Qed.

Lemma line_tokens_bound fuel : forall line,
  (2 * length (line_tokens fuel line)
   <= String.length line + (if starts_alpha line then 1 else 0))%nat.
Proof.
  induction fuel as [|fuel IH]; intros line; [simpl; lia|].
  cbn [line_tokens].
  destruct (skip_nonalpha_spec line) as (sep & E & Hsep & Hst).
  destruct (skip_nonalpha line) as [|c rest] eqn:Hskip; [simpl; lia|].
  destruct Hst as [?|Hst]; [done|].
  destruct (consume_alpha_spec (String c rest)) as (Ew & Hw & Hr & Hne).
  specialize (Hne Hst).
  destruct (consume_alpha (String c rest)) as [word rest'] eqn:Hcons.
  cbn [fst snd] in *. specialize (IH rest'). rewrite Hr in IH.
  assert (Hl : String.length line
               = (String.length sep + (String.length word + String.length rest'))%nat)
    by (by rewrite E, Ew, !length_append).
  assert (Hsa : starts_alpha line = false -> (1 <= String.length sep)%nat).
  { intros Hl0. destruct sep; simpl; [|lia]. rewrite append_empty_l in E.
    rewrite E in Hl0. congruence. }
  destruct word; [done|]. cbn [length String.length] in *.
  destruct (starts_alpha line); [lia|]. specialize (Hsa eq_refl). lia.
Qed.

Lemma token_loop_tokens fuel : forall line (words : list string) count,
  (count + length (line_tokens fuel line) <= length words)%nat ->
  token_loop fuel line words count
  = (take count words ++ line_tokens fuel line
       ++ drop (count + length (line_tokens fuel line)) words,
     (count + length (line_tokens fuel line))%nat).
Proof.
  induction fuel as [|fuel IH]; intros line words count Hc.
  - simpl. by rewrite Nat.add_0_r, take_drop.
  - cbn [line_tokens token_loop] in *.
    destruct (skip_nonalpha line) as [|c rest].
    + simpl. by rewrite Nat.add_0_r, take_drop.
    + destruct (consume_alpha (String c rest)) as [word rest'].
      cbn [length] in *. rewrite IH by (rewrite length_insert; lia).
      f_equal; [|lia].
      rewrite (take_S_r (<[count:=word]> words) count word)
        by (apply list_lookup_insert_eq; lia).
      rewrite take_insert_ge by lia.
      rewrite drop_insert_lt by lia.
      replace (count + S (length (line_tokens fuel rest')))%nat
        with (S count + length (line_tokens fuel rest'))%nat by lia.
      by rewrite <- app_assoc.
Qed.

(** [len] turns are enough for the second loop of the tokenizer. *)
Lemma token_loop_fuel fuel1 : forall fuel2 line (words : list string) count,
  (String.length line <= fuel1)%nat -> (String.length line <= fuel2)%nat ->
  token_loop fuel1 line words count = token_loop fuel2 line words count.
Proof.
  induction fuel1 as [|fuel1 IH]; intros fuel2 line words count H1 H2.
  - destruct line; simpl in H1; [|lia]. by destruct fuel2.
  - destruct fuel2 as [|fuel2].
    + destruct line; simpl in H2; [done | lia].
    + cbn [token_loop].
      destruct (skip_nonalpha_spec line) as (sep & E & _ & Hst).
      destruct (skip_nonalpha line) as [|c rest]; [done|].
      destruct Hst as [?|Hst]; [done|].
      destruct (consume_alpha_spec (String c rest)) as (Ew & _ & _ & Hne).
      specialize (Hne Hst).
      destruct (consume_alpha (String c rest)) as [word rest'].
      cbn [fst snd] in *.
      assert (Hl : String.length line
                   = (String.length sep + (String.length word + String.length rest'))%nat)
        by (by rewrite E, Ew, !length_append).
      destruct word; [done|]. cbn [String.length] in Hl.
      apply IH; lia.
Qed.

Lemma token_loop_count fuel : forall line (words : list string) count,
  (token_loop fuel line words count).2 = (count + length (line_tokens fuel line))%nat.
Proof.
  induction fuel as [|fuel IH]; intros line words count; [simpl; lia|].
  cbn [line_tokens token_loop].
  destruct (skip_nonalpha line) as [|c rest]; [simpl; lia|].
  destruct (consume_alpha (String c rest)) as [word rest'].
  rewrite IH. simpl. lia.
Qed.


Lemma tolower_spec c :
  (isalpha c = true -> islower (tolower c) = true)
  /\ (isalpha c = false -> tolower c = c)
  /\ (isspace c = true -> isalpha c = false)
  /\ (islower c = true -> isalpha c = true).
Proof.
  destruct c as [[] [] [] [] [] [] [] []]; vm_compute; repeat split; congruence.
Qed.

Lemma all_chars_append p s t :
  all_chars p (s +:+ t) = all_chars p s && all_chars p t.
Proof.
  induction s as [|c s IH]; [done|]. rewrite append_cons. simpl.
  by rewrite IH, andb_assoc.
Qed.

Lemma all_chars_impl (p q : ascii -> bool) s :
  (forall c, p c = true -> q c = true) ->
  all_chars p s = true -> all_chars q s = true.
Proof.
  intros Hpq. induction s as [|c s IH]; simpl; [done|].
  rewrite !andb_true_iff. intros [? ?]. auto.
Qed.

Lemma length_map_string f s : String.length (map_string f s) = String.length s.
Proof. induction s; simpl; congruence. Qed.

Lemma first_pass_ok line :
  all_chars query_char line = true ->
  first_pass line = inr (map_string tolower line).
Proof.
  induction line as [|c rest IH]; simpl; [done|].
  rewrite andb_true_iff. intros [Hc Hrest]. rewrite (IH Hrest).
  unfold query_char in Hc. destruct (isalpha c) eqn:Ha; [done|].
  simpl in Hc. rewrite Hc. f_equal. f_equal.
  symmetry. by apply tolower_spec.
Qed.

Lemma first_pass_bad line :
  all_chars query_char line = false ->
  exists bad, first_pass line = inl bad /\ query_char bad = false.
Proof.
  induction line as [|c rest IH]; simpl; [done|].
  rewrite andb_false_iff. unfold query_char at 1.
  destruct (isalpha c) eqn:Ha; simpl.
  - intros [?|Hrest]; [done|]. destruct (IH Hrest) as (bad & -> & Hb). eauto.
  - destruct (isspace c) eqn:Hs.
    + intros [?|Hrest]; [done|]. destruct (IH Hrest) as (bad & -> & Hb). eauto.
    + intros _. exists c. split; [done|]. unfold query_char. by rewrite Ha, Hs.
Qed.

Lemma map_tolower_lowered line :
  all_chars lower_or_sep (map_string tolower line) = true.
Proof.
  induction line as [|c rest IH]; simpl; [done|].
  rewrite IH, andb_true_r. unfold lower_or_sep.
  destruct (tolower_spec c) as (Hl & Hid & _ & _).
  destruct (isalpha c) eqn:Ha.
  - rewrite Hl by done. apply orb_true_r.
  - rewrite Hid, Ha by done. done.
Qed.

Lemma runs_lowercase line ws :
  alphabetic_runs line ws ->
  all_chars lower_or_sep line = true ->
  Forall (fun w => all_chars islower w = true) ws.
Proof.
  induction 1 as [|sep word rest ws Hsep Hne Hw Hr Hruns IH]; intros Hall;
    [constructor|].
  rewrite !all_chars_append, !andb_true_iff in Hall.
  destruct Hall as (_ & Hword & Hrest). constructor; [|by apply IH].
  clear -Hw Hword. induction word as [|c w IH]; simpl in *; [done|].
  apply andb_true_iff in Hw as [Hc Hw], Hword as [Hl Hword].
  rewrite IH by done. unfold lower_or_sep in Hl. rewrite Hc in Hl. simpl in Hl.
  by rewrite Hl.
Qed.

Lemma skip_nonalpha_blank s :
  all_chars (fun c => negb (isalpha c)) s = true -> skip_nonalpha s = EmptyString.
Proof.
  induction s as [|c s IH]; simpl; [done|].
  destruct (isalpha c); simpl; [done | exact IH].
Qed.

Lemma tokens_fit (line : string) fuel :
  (length (line_tokens fuel line) <= String.length line / 2 + 1)%nat.
Proof.
  pose proof (line_tokens_bound fuel line) as Hb.
  assert (2 * length (line_tokens fuel line) <= String.length line + 1)%nat
    by (destruct (starts_alpha line); lia).
  pose proof (Nat.div_mod_eq (String.length line) 2).
  pose proof (Nat.mod_upper_bound (String.length line) 2 ltac:(lia)). lia.
Qed.

Lemma tokenize_ok line :
  all_chars query_char line = true ->
  tokenize_and_validate line
  = (validate_tokens
       (Some (line_tokens (String.length line) (map_string tolower line))),
     Some (line_tokens (String.length line) (map_string tolower line))).
Proof.
  intros Hok. unfold tokenize_and_validate. rewrite (first_pass_ok line Hok).
  set (len := String.length line). set (line' := map_string tolower line).
  pose proof (tokens_fit line' len) as Hfit.
  unfold line' in Hfit at 2. rewrite length_map_string in Hfit. fold len in Hfit.
  rewrite token_loop_tokens by (rewrite length_replicate; exact Hfit).
  cbn [Nat.add]. rewrite take_0, app_nil_l. by rewrite take_app_length.
Qed.


(** ** Validation *)

Lemma adjacent_loop_reject rest : forall prev d,
  adjacent_loop prev rest = Reject d -> operators_adjacent (prev :: rest) d.
Proof.
  induction rest as [|w rest IH]; intros prev d; simpl; [done|].
  destruct (is_operator prev) eqn:Hp, (is_operator w) eqn:Hw; simpl.
  - intros [= <-]. by exists [], prev, w, rest.
  - intros (pre & w1 & w2 & post & E & ?)%IH. exists (prev :: pre), w1, w2, post.
    by rewrite E.
  - intros (pre & w1 & w2 & post & E & ?)%IH. exists (prev :: pre), w1, w2, post.
    by rewrite E.
  - intros (pre & w1 & w2 & post & E & ?)%IH. exists (prev :: pre), w1, w2, post.
    by rewrite E.
Qed.

Lemma adjacent_loop_accept rest : forall prev,
  adjacent_loop prev rest = Accept ->
  forall pre w1 w2 post, prev :: rest = pre ++ w1 :: w2 :: post ->
    is_operator w1 && is_operator w2 = false.
Proof.
  induction rest as [|w rest IH]; intros prev Hacc pre w1 w2 post E.
  - destruct pre as [|? [|? ?]]; simplify_eq.
  - simpl in Hacc. destruct (is_operator prev && is_operator w) eqn:Hpw; [done|].
    destruct pre as [|p pre]; simpl in E.
    + injection E as -> -> _. exact Hpw.
    + injection E as -> E. by eapply IH.
Qed.

Lemma last_cons (l : list string) : forall x d, List.last (x :: l) d = List.last l x.
Proof.
  induction l as [|y l IH]; intros x d; [done|].
  change (List.last (x :: y :: l) d) with (List.last (y :: l) d).
  by rewrite !IH.
Qed.

Lemma last_snoc (l : list string) : forall d, exists init, d :: l = init ++ [List.last l d].
Proof.
  induction l as [|x l IH]; intros d; [by exists []|].
  destruct (IH x) as (init & E). exists (d :: init).
  rewrite last_cons. simpl. by rewrite E.
Qed.

Lemma last_of_snoc (l init : list string) d w :
  d :: l = init ++ [w] -> List.last l d = w.
Proof.
  destruct init as [|x init]; simpl.
  - by intros [= -> ->].
  - intros [= -> ->]. apply List.last_last.
Qed.

(** An accepted query does not end with "and". *)
Lemma accepted_ends_with_word (ws : list string) :
  validate_tokens (Some ws) = Accept -> ends_with_word ws.
Proof.
  unfold ends_with_word. destruct ws as [|w0 rest]; [done|].
  rewrite last_cons. simpl.
  destruct (is_operator w0); [done|].
  destruct (is_operator (List.last rest w0)) eqn:Hop; [done|].
  intros _ Hand. by rewrite Hand in Hop.
Qed.

(** C5.  [validate_tokens] accepts the empty sequence, and rejects a
    sequence exactly when its first token is an operator, its last token is
    an operator, or two tokens in a row are operators; the diagnostic names
    the rule broken and the tokens that break it.  A line whose tokens are
    rejected is not evaluated: [query_step] leaves the heap as it is. *)
Theorem validate_tokens_grammar (ws : list string) :
  validate_tokens (Some []) = Accept
  /\ (forall d, validate_tokens (Some ws) = Reject d -> violation ws d)
  /\ (forall d, violation ws d -> exists d', validate_tokens (Some ws) = Reject d')
  /\ (forall line d index (h : heap),
        (tokenize_and_validate line).1 = Reject d ->
        query_step index line h = (h, Rejected d)).
Proof.
  split; [done|]. split; [|split].
  - intros d. destruct ws as [|w0 rest]; simpl; [done|].
    destruct (is_operator w0) eqn:H0.
    + intros [= <-]. left. by exists w0, rest.
    + destruct (is_operator (List.last rest w0)) eqn:Hl.
      * intros [= <-]. right. left. destruct (last_snoc rest w0) as (init & E).
        by exists init, (List.last rest w0).
      * intros Hadj. right. right. by apply adjacent_loop_reject.
  - intros d [Hv | [Hv | Hv]].
    + destruct Hv as (w & rest & -> & Hop & _). simpl. rewrite Hop. eauto.
    + destruct Hv as (init & w & E & Hop & _).
      destruct ws as [|w0 rest]; [by destruct init|]. simpl.
      destruct (is_operator w0); [eauto|].
      rewrite (last_of_snoc rest init w0 w E), Hop. eauto.
    + destruct Hv as (pre & w1 & w2 & post & E & Hop1 & Hop2 & _).
      destruct ws as [|w0 rest]; [by destruct pre|]. simpl.
      destruct (is_operator w0); [eauto|].
      destruct (is_operator (List.last rest w0)); [eauto|].
      destruct (adjacent_loop w0 rest) as [|d'] eqn:Hadj; [|eauto].
      pose proof (adjacent_loop_accept rest w0 Hadj pre w1 w2 post E) as Hno.
      rewrite Hop1, Hop2 in Hno. done.
  - intros line d index h Hrej. unfold query_step.
    destruct (tokenize_and_validate line) as [v words]. simpl in Hrej. by subst v.
Qed.

(** C6.  A line with a character that is neither a letter nor white space
    is rejected with the bad-character diagnostic, without a token sequence
    and without evaluation.  Any other line is cut into the maximal runs of
    letters of the lowercased line, every token being lowercase letters
    only.  A line of white space only (or empty) gives the empty sequence,
    which is accepted and does nothing. *)
Theorem tokenize_line (line : string) :
  (all_chars query_char line = false ->
     exists bad,
       tokenize_and_validate line = (Reject (BadCharacter bad), None)
       /\ query_char bad = false
       /\ forall index (h : heap),
            query_step index line h = (h, Rejected (BadCharacter bad)))
  /\ (all_chars query_char line = true ->
        exists ws,
          tokenize_and_validate line = (validate_tokens (Some ws), Some ws)
          /\ alphabetic_runs (map_string tolower line) ws
          /\ Forall (fun w => all_chars islower w = true) ws)
  /\ (all_chars isspace line = true ->
        tokenize_and_validate line = (Accept, Some [])
        /\ forall index (h : heap), query_step index line h = (h, BlankLine)).
Proof.
  split; [|split].
  - intros Hbad. destruct (first_pass_bad line Hbad) as (bad & Hfp & Hq).
    exists bad. assert (Htok : tokenize_and_validate line = (Reject (BadCharacter bad), None))
      by (unfold tokenize_and_validate; by rewrite Hfp).
    split; [done|]. split; [done|]. intros index h. unfold query_step. by rewrite Htok.
  - intros Hok. eexists. split; [by apply tokenize_ok|].
    assert (Hruns : alphabetic_runs (map_string tolower line)
              (line_tokens (String.length line) (map_string tolower line))).
    { apply line_tokens_runs. by rewrite length_map_string. }
    split; [done|]. eapply runs_lowercase; [done|]. apply map_tolower_lowered.
  - intros Hsp.
    assert (Hok : all_chars query_char line = true).
    { eapply all_chars_impl; [|done]. intros c Hc. unfold query_char.
      rewrite Hc. apply orb_true_r. }
    assert (Hblank : all_chars (fun c => negb (isalpha c)) (map_string tolower line) = true).
    { clear Hok. induction line as [|c rest IH]; simpl in *; [done|].
      apply andb_true_iff in Hsp as [Hc Hrest]. rewrite IH by done.
      destruct (tolower_spec c) as (_ & Hid & Hs & _).
      rewrite Hid by auto. by rewrite Hs. }
    assert (Htok : tokenize_and_validate line = (Accept, Some [])).
    { rewrite (tokenize_ok line Hok).
      replace (line_tokens _ _) with (@nil string); [done|].
      destruct (String.length line); simpl; [done|].
      by rewrite skip_nonalpha_blank. }
    split; [done|]. intros index h. unfold query_step. by rewrite Htok.
Qed.

(** C9.  For a line of [len] letters and white space, the second loop of
    [tokenize_and_validate] counts at most [len/2 + 1] words, so that every
    [words[count]] it writes is one of the [len/2 + 1] slots: the first
    [count] slots of the array hold the words found. *)
Theorem token_array_bound (line line' : string) :
  first_pass line = inr line' ->
  let len := String.length line in
  let cap := (len / 2 + 1)%nat in
  let out := token_loop len line' (replicate cap EmptyString) 0 in
  (out.2 <= cap)%nat
  /\ length out.1 = cap
  /\ out.2 = length (line_tokens len line')
  /\ take out.2 out.1 = line_tokens len line'.
Proof.
  intros Hfp len cap out.
  assert (Hlen : String.length line' = len).
  { clear -Hfp. subst len. revert line' Hfp.
    induction line as [|c rest IH]; intros line'; simpl.
    - by intros [= <-].
    - destruct (isalpha c); [|destruct (isspace c); [|done]];
        destruct (first_pass rest) as [|r]; try done;
        intros [= <-]; simpl; by rewrite (IH r). }
  pose proof (tokens_fit line' len) as Hfit. rewrite Hlen in Hfit. fold cap in Hfit.
  subst out. rewrite token_loop_tokens by (rewrite length_replicate; exact Hfit).
  cbn [fst snd Nat.add]. rewrite take_0, app_nil_l.
  split; [exact Hfit|]. split; [|split; [done|by rewrite take_app_length]].
  rewrite length_app, length_drop, length_replicate. lia.
Qed.

(** "Hello   World": 13 characters, 7 slots, 2 words. *)
Lemma token_array_bound_witness :
  ((token_loop 13 "hello   world" (replicate 7 EmptyString) 0).2 <= 7)%nat
  /\ take 2 (token_loop 13 "hello   world" (replicate 7 EmptyString) 0).1
     = ["hello"; "world"]%string.
Proof.
  destruct (token_array_bound "Hello   World" "hello   world" eq_refl)
    as (Hbound & _ & _ & Htake).
  split; [exact Hbound | exact Htake].
Defined.


(** ** Counters of the groups *)

Lemma foldl_node_set_wf (F : counters_t -> Z * Z -> counters_t) l :
  (forall c kc, counters_wf c -> counters_wf (F c kc)) ->
  forall c, counters_wf c -> counters_wf (foldl F c l).
Proof.
  intros HF. induction l as [|kc l IH]; intros c Hc; simpl; [done|].
  by apply IH, HF.
Qed.

Lemma nil_wf : counters_wf [].
Proof. split; constructor. Qed.

Lemma and_nodes_wf post word acc :
  (forall c, acc = Some c -> counters_wf c) -> counters_wf (and_nodes post word acc).
Proof.
  intros Hacc. unfold and_nodes.
  destruct acc as [c|], (post word) as [p|].
  - apply foldl_node_set_wf; [|by apply Hacc]. intros. by apply node_set_wf.
  - apply foldl_node_set_wf; [|by apply Hacc]. intros. by apply node_set_wf.
  - apply copy_nodes_wf, nil_wf.
  - apply nil_wf.
Qed.

Lemma andseq_nodes_wf post ws : forall i acc,
  (forall c, acc = Some c -> counters_wf c) ->
  forall c, (andseq_nodes post ws i acc).1 = Some c -> counters_wf c.
Proof.
  induction ws as [|w ws IH]; intros i acc Hacc c; simpl; [apply Hacc|].
  destruct (String.eqb w "or"); [apply Hacc|].
  destruct (String.eqb w "and"); [by apply IH|].
  apply IH. intros c' [= <-]. by apply and_nodes_wf.
Qed.

Lemma group_nodes_wf post words start : counters_wf (group_nodes post words start).1.
Proof.
  unfold group_nodes.
  pose proof (andseq_nodes_wf post (drop start words) start None) as H.
  destruct (andseq_nodes post (drop start words) start None) as [[c|] e]; simpl.
  - by apply H.
  - apply nil_wf.
Qed.

(** ** Order of the ranked list *)

Lemma qsort_insert_sorted x l :
  Sorted by_score l -> Sorted by_score (qsort_insert cmp_docscore_desc x l).
Proof.
  induction 1 as [|y l Hs IH Hhd]; simpl; [repeat constructor|].
  unfold cmp_docscore_desc at 1. destruct (Z.leb_spec (score y - score x) 0).
  - constructor; [by constructor|]. constructor. unfold by_score. lia.
  - constructor; [done|].
    destruct l as [|z l]; simpl.
    + constructor. unfold by_score. lia.
    + unfold cmp_docscore_desc at 1. destruct (Z.leb_spec (score z - score x) 0);
        constructor; unfold by_score; try lia. by inversion Hhd.
Qed.

Lemma qsort_sorted l : Sorted by_score (qsort l cmp_docscore_desc).
Proof.
  unfold qsort. induction l as [|x l IH]; simpl; [constructor|].
  by apply qsort_insert_sorted.
Qed.

(** The ranked list is in descending order of score, whatever the
    counters. *)
Lemma rank_sorted_by_score (h : heap) (r : loc) (c : counters_t) n docs :
  h !! r = Some (Some c) ->
  rank_and_print h (Some r) = Matches n docs ->
  Sorted by_score docs.
Proof.
  intros Hr. rewrite (rank_and_print_live h r c Hr). unfold rank_nodes.
  destruct (positive_nodes c) as [|d ds]; [done|].
  intros [= _ <-]. apply (qsort_sorted (d :: ds)).
Qed.

(** C3.  The ranked list is not ordered by ascending docID among equal
    scores.  With "b" in document 2 only and "a" in document 3 only, once
    each, the query "b or a" lists document 3 before document 2, both with
    score 1: [cmp_docscore_desc] compares the scores alone and gives 0 for
    the two entries, which stay in the order [counters_iterate] met them. *)
Example rank_ties_by_iteration_order :
  (query_step example_index "b or a" tie_heap).2
  = Answer ["b"; "or"; "a"]%string
      (Matches 2 [{| docID := 3; score := 1 |}; {| docID := 2; score := 1 |}])
  /\ cmp_docscore_desc {| docID := 3; score := 1 |} {| docID := 2; score := 1 |} = 0.
Proof. split; vm_compute; reflexivity. Qed.

(** ** The end of an AND-group *)

Lemma group_rest_before ws j :
  (j < length ws - length (group_rest ws))%nat ->
  exists w, ws !! j = Some w /\ String.eqb w "or" = false.
Proof.
  revert j. induction ws as [|w ws IH]; intros j; simpl; [lia|].
  destruct (String.eqb w "or") eqn:Hor; simpl.
  - lia.
  - pose proof (group_rest_drop ws) as [Hl _]. intros Hj.
    destruct j as [|j]; [by exists w|]. simpl. apply IH. lia.
Qed.

(** X1.  The value [evaluate_andsequence] stores through [end_out], for a
    start inside the array or at its end: it lies between the start and
    [nwords], no word from the start up to it is "or", and when words are
    left the word at that position is "or".  The function also returns a
    non-NULL counters. *)
Theorem end_out_contract (index : index_t) (words : list string)
    (start : nat) (h : heap) :
  (start <= length words)%nat ->
  let out := evaluate_andsequence index words start h in
  let end_ := out.2 in
  is_Some out.1.2
  /\ (start <= end_ <= length words)%nat
  /\ (forall j, (start <= j < end_)%nat -> word_at words j <> "or"%string)
  /\ ((end_ < length words)%nat -> word_at words end_ = "or"%string).
Proof.
  intros Hs out end_. subst end_ out.
  split; [apply evaluate_andsequence_some|].
  pose proof (evaluate_andsequence_suffix index words start h Hs) as E.
  pose proof (group_rest_drop (drop start words)) as [Hl Hd].
  rewrite length_drop in Hl, Hd.
  rewrite E. cbn [snd]. split; [lia|]. split.
  - intros j Hj.
    destruct (group_rest_before (drop start words) (j - start)) as (w & Hw & Hor).
    { rewrite length_drop. lia. }
    rewrite lookup_drop in Hw. replace (start + (j - start))%nat with j in Hw by lia.
    unfold word_at. rewrite Hw. simpl. intros ->. done.
  - intros Hlt.
    destruct (group_rest (drop start words)) as [|w r] eqn:Hg; [simpl in *; lia|].
    pose proof (group_rest_head _ _ _ Hg) as Hor. apply String.eqb_eq in Hor as ->.
    unfold word_at.
    assert (Hlk : drop start words !! (length words - start - length ("or"%string :: r))%nat
                  = Some "or"%string).
    { rewrite <- (Nat.add_0_r (_ - _ - _)), <- lookup_drop, <- Hd. done. }
    rewrite lookup_drop in Hlk.
    replace (start + (length words - start - length ("or"%string :: r)))%nat
      with (length words - length ("or"%string :: r))%nat in Hlk by (simpl in *; lia).
    by rewrite Hlk.
Qed.

Lemma end_out_contract_witness :
  (evaluate_andsequence example_index ["a"; "and"; "b"; "or"; "b"]%string 0
     example_heap).2 = 3%nat
  /\ word_at ["a"; "and"; "b"; "or"; "b"]%string 3 = "or"%string.
Proof.
  destruct (end_out_contract example_index ["a"; "and"; "b"; "or"; "b"]%string 0
              example_heap ltac:(simpl; lia)) as (_ & _ & _ & Hor).
  split; [reflexivity|]. apply Hor. vm_compute. lia.
Defined.

(** ** Scores of a query *)

Lemma copy_nodes_other l : forall dest k,
  k ∉ keys l -> node_get (copy_nodes dest l) k = node_get dest k.
Proof.
  unfold copy_nodes.
  induction l as [|[k1 n1] l IH]; intros dest k Hn; simpl; [done|].
  unfold keys in Hn. simpl in Hn. apply not_elem_of_cons in Hn as [Hne Hn].
  rewrite IH by done. unfold node_set.
  destruct ((k1 <? 0) || (n1 <? 0)); [done|].
  destruct (node_mem dest k1) eqn:Hm.
  - rewrite node_get_update. destruct (Z.eqb_spec k1 k); [congruence|done].
  - simpl. destruct (Z.eqb_spec k1 k); [congruence|done].
Qed.

Lemma copy_nodes_score p d :
  counters_wf p -> node_get (copy_nodes [] p) d = node_get p d.
Proof.
  intros Hp. destruct (decide (d ∈ keys p)) as [Hin|Hnin].
  - apply copy_nodes_get; [apply nil_wf | done | done].
  - rewrite copy_nodes_other by done. simpl. by rewrite node_get_absent.
Qed.

Lemma and_nodes_score post w acc d :
  postings_wf post ->
  (forall c, acc = Some c -> counters_wf c) ->
  node_get (and_nodes post w acc) d
  = match acc with
    | None => term_count post w d
    | Some c => Z.min (node_get c d) (term_count post w d)
    end.
Proof.
  intros Hpost Hacc. unfold and_nodes, term_count.
  destruct acc as [c|], (post w) as [p|] eqn:Hp; [| | |done].
  - pose proof (Hacc c eq_refl) as Hc. pose proof (Hpost w p Hp) as Hwf.
    rewrite (intersect_nodes_wf c p Hc (wf_nonneg _ Hwf)).
    pose proof (node_get_nonneg p d (wf_nonneg _ Hwf)).
    destruct (decide (d ∈ keys c)) as [Hin|Hnin].
    + by rewrite (node_get_map (fun kc => Z.min kc.2 (node_get p kc.1))).
    + rewrite (node_get_absent c d Hnin), node_get_absent; [lia|].
      by rewrite keys_map.
  - pose proof (Hacc c eq_refl) as Hc. rewrite (zero_nodes_wf c Hc).
    pose proof (node_get_nonneg c d (wf_nonneg _ Hc)).
    destruct (decide (d ∈ keys c)) as [Hin|Hnin].
    + rewrite (node_get_map (fun _ => 0)) by done. lia.
    + rewrite node_get_absent; [lia|]. by rewrite (keys_map (fun _ => 0)).
  - apply copy_nodes_score. by eapply Hpost.
Qed.

(** A word after the first of a group keeps the documents of the
    accumulator. *)
Lemma and_nodes_keys post w c :
  postings_wf post -> counters_wf c ->
  keys (and_nodes post w (Some c)) = keys c.
Proof.
  intros Hpost Hc. unfold and_nodes. destruct (post w) as [p|] eqn:Hp.
  - rewrite (intersect_nodes_wf c p Hc (wf_nonneg _ (Hpost w p Hp))).
    apply keys_map.
  - rewrite (zero_nodes_wf c Hc). apply (keys_map (fun _ => 0)).
Qed.

Lemma andseq_nodes_score post d ws : forall i acc,
  postings_wf post ->
  (forall c, acc = Some c -> counters_wf c) ->
  default 0 ((fun c => node_get c d) <$> (andseq_nodes post ws i acc).1)
  = group_score post ws ((fun c => node_get c d) <$> acc) d.
Proof.
  induction ws as [|w ws IH]; intros i acc Hpost Hacc; simpl; [done|].
  destruct (String.eqb w "or") eqn:Hor; simpl; [done|].
  destruct (String.eqb w "and"); [by apply IH|].
  rewrite IH; [|done|].
  - simpl. rewrite and_nodes_score by done. by destruct acc.
  - intros c [= <-]. by apply and_nodes_wf.
Qed.

Lemma group_nodes_score post words start d :
  postings_wf post ->
  node_get (group_nodes post words start).1 d
  = group_score post (drop start words) None d.
Proof.
  intros Hpost. unfold group_nodes.
  pose proof (andseq_nodes_score post d (drop start words) start None Hpost
                ltac:(done)) as Hs.
  destruct (andseq_nodes post (drop start words) start None) as [[c|] e];
    simpl in *; done.
Qed.

Lemma andseq_nodes_position post ws : forall i acc,
  andseq_nodes post ws i acc
  = ((andseq_nodes post ws 0 acc).1,
     (i + (length ws - length (group_rest ws)))%nat).
Proof.
  induction ws as [|w ws IH]; intros i acc; simpl.
  - f_equal. lia.
  - pose proof (group_rest_drop ws) as [Hl _].
    destruct (String.eqb w "or"); simpl.
    + f_equal. lia.
    + destruct (String.eqb w "and").
      * rewrite (IH (S i)), (IH 1%nat). simpl. f_equal. lia.
      * rewrite (IH (S i)), (IH 1%nat). simpl. f_equal. lia.
Qed.

Lemma group_rest_nil ws : "or"%string ∉ ws -> group_rest ws = [].
Proof.
  induction ws as [|w ws IH]; [done|]. intros [Hne Hor]%not_elem_of_cons.
  simpl. destruct (String.eqb_spec w "or"); [congruence | by apply IH].
Qed.

(** Where the next turn of the loop of [evaluate_query] starts. *)
Lemma next_start (words : list string) (i : nat) :
  (i < length words)%nat ->
  let e := (length words - length (group_rest (drop i words)))%nat in
  let i' := if (e <? length words)%nat && String.eqb (word_at words e) "or"
            then S e else e in
  drop i' words = after_or (group_rest (drop i words))
  /\ (i < i' <= length words)%nat.
Proof.
  intros Hi e i'.
  pose proof (group_rest_drop (drop i words)) as [Hl Hd].
  rewrite length_drop in Hl, Hd. rewrite drop_drop in Hd.
  assert (He : drop e words = group_rest (drop i words)).
  { rewrite Hd at 1. f_equal. unfold e. lia. }
  destruct (group_rest (drop i words)) as [|w' r] eqn:Hrest.
  - assert (Hel : e = length words) by (unfold e; simpl; lia).
    subst i'. rewrite Hel, Nat.ltb_irrefl. simpl. rewrite drop_all. split; [done|lia].
  - assert (Hlt' : (e < length words)%nat) by (unfold e; simpl; lia).
    pose proof (group_rest_head _ _ _ Hrest) as Hor.
    assert (Hw : word_at words e = w').
    { unfold word_at. rewrite <- (Nat.add_0_r e), <- lookup_drop, He. done. }
    subst i'. rewrite Hw, Hor. destruct (Nat.ltb_spec e (length words)); [|lia].
    simpl. rewrite Hor. split.
    + replace (S e) with (e + 1)%nat by lia.
      by rewrite <- (drop_drop words 1 e), He.
    + unfold e in *. simpl in *. lia.
Qed.

(** *** Counts in the range of [int] *)

Lemma node_get_le c k :
  Forall (fun kc => kc.2 <= INT_MAX) c -> node_get c k <= INT_MAX.
Proof.
  induction 1 as [|[k' n] c Hn _ IH]; simpl; [unfold INT_MAX; lia|].
  by destruct (k' =? k).
Qed.

Lemma term_count_nonneg post w d : postings_wf post -> 0 <= term_count post w d.
Proof.
  intros Hp. unfold term_count. destruct (post w) as [p|] eqn:E; [|lia].
  apply node_get_nonneg, wf_nonneg. by eapply Hp.
Qed.

Lemma term_count_le post w d : postings_int post -> term_count post w d <= INT_MAX.
Proof.
  intros Hp. unfold term_count.
  destruct (post w) as [p|] eqn:E; [|unfold INT_MAX; lia].
  apply node_get_le. by eapply Hp.
Qed.

Lemma group_score_bounds post d ws : forall cur,
  postings_wf post -> postings_int post ->
  (forall s, cur = Some s -> 0 <= s <= INT_MAX) ->
  0 <= group_score post ws cur d <= INT_MAX.
Proof.
  intros cur Hwf Hint. revert cur.
  assert (Hdef : forall cur, (forall s, cur = Some s -> 0 <= s <= INT_MAX) ->
                   0 <= default 0 cur <= INT_MAX).
  { intros [s|] Hc; simpl; [by apply Hc | unfold INT_MAX; lia]. }
  induction ws as [|w ws IH]; intros cur Hcur; simpl; [by apply Hdef|].
  destruct (String.eqb w "or"); [by apply Hdef|].
  destruct (String.eqb w "and"); [by apply IH|].
  apply IH. intros s [= <-].
  pose proof (term_count_nonneg post w d Hwf).
  pose proof (term_count_le post w d Hint).
  destruct cur as [s|]; [|lia]. specialize (Hcur s eq_refl). lia.
Qed.

(** *** The groups of a query, added from left to right *)

Lemma query_score_next post d ws : forall tot cur,
  query_score post ws tot cur d
  = query_score post (after_or (group_rest ws))
      (add_kept tot (group_score post ws cur d)) None d.
Proof.
  induction ws as [|w ws IH]; intros tot cur; simpl.
  - by rewrite add_kept_zero.
  - destruct (String.eqb w "or") eqn:Hor; simpl; [by rewrite Hor|].
    destruct (String.eqb w "and"); apply IH.
Qed.

Lemma group_sum_score post words d fuel : forall i tot,
  postings_wf post ->
  (i <= length words)%nat -> (length words - i <= fuel)%nat ->
  group_sum fuel post words i tot d = query_score post (drop i words) tot None d.
Proof.
  induction fuel as [|fuel IH]; intros i tot Hpost Hi Hf.
  - rewrite drop_ge by lia. simpl. by rewrite add_kept_zero.
  - cbn [group_sum]. destruct (Nat.ltb_spec i (length words)) as [Hlt|Hge].
    + pose proof (group_nodes_score post words i d Hpost) as Hg.
      unfold group_nodes in *.
      rewrite (andseq_nodes_position post (drop i words) i None) in *.
      destruct (andseq_nodes post (drop i words) 0 None) as [acc e0].
      cbn [fst snd] in *.
      pose proof (next_start words i Hlt) as [Hd Hb].
      pose proof (group_rest_drop (drop i words)) as [Hl _].
      rewrite length_drop in Hl.
      replace (i + (length (drop i words) - length (group_rest (drop i words))))%nat
        with (length words - length (group_rest (drop i words)))%nat
        by (rewrite length_drop; lia).
      rewrite IH; [|done|lia|lia]. rewrite Hd, Hg.
      symmetry. apply query_score_next.
    + rewrite drop_ge by lia. simpl. by rewrite add_kept_zero.
Qed.

Lemma or_nodes_sum post words d fuel : forall i acc,
  postings_wf post -> postings_int post ->
  counters_wf acc -> (forall j, node_get acc j <= INT_MAX) ->
  node_get (or_nodes fuel post words i acc true) d
  = group_sum fuel post words i (node_get acc d) d.
Proof.
  induction fuel as [|fuel IH]; intros i acc Hwf Hint Hacc Hle; simpl; [done|].
  destruct (i <? length words)%nat; [|done].
  pose proof (group_nodes_wf post words i) as Hg.
  assert (Hgle : forall j, node_get (group_nodes post words i).1 j <= INT_MAX).
  { intros j. rewrite group_nodes_score by done.
    by apply group_score_bounds. }
  destruct (group_nodes post words i) as [g e]. simpl in Hg, Hgle.
  rewrite IH;
    [|done|done|by apply union_nodes_wf|intros j; by apply union_nodes_le].
  by rewrite union_nodes_get.
Qed.

Lemma query_nodes_sum post words d :
  postings_wf post -> postings_int post ->
  node_get (query_nodes post words) d = group_sum (length words) post words 0 0 d.
Proof.
  intros Hwf Hint.
  unfold query_nodes. destruct (length words) as [|fuel] eqn:Hlen; simpl; [done|].
  rewrite Hlen. simpl.
  pose proof (group_nodes_wf post words 0) as Hg.
  assert (Hgle : forall j, 0 <= node_get (group_nodes post words 0).1 j <= INT_MAX).
  { intros j. rewrite group_nodes_score by done.
    by apply group_score_bounds. }
  destruct (group_nodes post words 0) as [g e]. simpl in Hg, Hgle.
  rewrite or_nodes_sum; [|done|done|done|intros j; apply Hgle].
  f_equal. unfold add_kept. specialize (Hgle d).
  destruct (Z.leb_spec (0 + node_get g d) INT_MAX); lia.
Qed.

(** The score [evaluate_query] gives a document, from the counts of the
    index. *)
Lemma evaluate_query_sum (index : index_t) (words : list string) (h : heap) d :
  index_loaded h index ->
  postings_wf (postings h index) -> postings_int (postings h index) ->
  counters_get (evaluate_query (Some index) (Some words) h).1
    (evaluate_query (Some index) (Some words) h).2 d
  = query_score (postings h index) words 0 None d.
Proof.
  intros Hl Hwf Hint.
  destruct (evaluate_query_refines h index Hl words []) as (ext & r & E & _ & Hr).
  rewrite app_nil_r in E. rewrite E. simpl fst. simpl snd.
  rewrite (counters_get_live _ _ _ _ Hr), query_nodes_sum by done.
  rewrite group_sum_score by (done || lia). by rewrite drop_0.
Qed.

(** A query without "or" is one group, whose counters is the result. *)
Lemma query_nodes_first post words :
  "or"%string ∉ words ->
  query_nodes post words = (group_nodes post words 0).1.
Proof.
  intros Hor. unfold query_nodes, group_nodes. rewrite drop_0.
  destruct words as [|w ws] eqn:Hw; [done|]. rewrite <- Hw in *.
  assert (Hlen : length words = S (length ws)) by (by rewrite Hw).
  rewrite Hlen. cbn [or_nodes]. rewrite Hlen. simpl Nat.ltb.
  unfold group_nodes. rewrite drop_0.
  rewrite (andseq_nodes_position post words 0 None).
  rewrite (group_rest_nil words Hor).
  destruct (andseq_nodes post words 0 None) as [acc e0]. cbn [fst snd length].
  rewrite Nat.sub_0_r, Nat.add_0_l, Hlen, Nat.ltb_irrefl. cbn [andb].
  destruct (length ws) as [|n]; [done|]. cbn [or_nodes].
  by rewrite Hlen, Nat.ltb_irrefl.
Qed.

Lemma evaluate_query_group (index : index_t) (words : list string) (h : heap) d :
  index_loaded h index -> postings_wf (postings h index) ->
  "or"%string ∉ words ->
  counters_get (evaluate_query (Some index) (Some words) h).1
    (evaluate_query (Some index) (Some words) h).2 d
  = group_score (postings h index) words None d.
Proof.
  intros Hl Hwf Hor.
  destruct (evaluate_query_refines h index Hl words []) as (ext & r & E & _ & Hr).
  rewrite app_nil_r in E. rewrite E. simpl fst. simpl snd.
  rewrite (counters_get_live _ _ _ _ Hr), query_nodes_first by done.
  rewrite group_nodes_score by done. by rewrite drop_0.
Qed.


Lemma example_postings_wf : postings_wf (postings example_heap example_index).
Proof.
  intros w p. unfold postings, index_find, example_index.
  destruct (decide (w = "a"%string)) as [->|Ha].
  - rewrite lookup_insert_eq. cbn. intros [= <-]. solve_wf.
  - rewrite lookup_insert_ne by done.
    destruct (decide (w = "b"%string)) as [->|Hb].
    + rewrite lookup_singleton_eq. cbn. intros [= <-]. solve_wf.
    + by rewrite lookup_singleton_ne.
Qed.

Lemma example_postings_int : postings_int (postings example_heap example_index).
Proof.
  intros w p. unfold postings, index_find, example_index.
  destruct (decide (w = "a"%string)) as [->|Ha].
  - rewrite lookup_insert_eq. cbn. intros [= <-].
    repeat constructor; by vm_compute.
  - rewrite lookup_insert_ne by done.
    destruct (decide (w = "b"%string)) as [->|Hb].
    + rewrite lookup_singleton_eq. cbn. intros [= <-].
      repeat constructor; by vm_compute.
    + by rewrite lookup_singleton_ne.
Qed.

Lemma or_nodes_wf post words fuel : forall i acc have,
  counters_wf acc -> counters_wf (or_nodes fuel post words i acc have).
Proof.
  induction fuel as [|fuel IH]; intros i acc have Hacc; simpl; [done|].
  destruct (i <? length words)%nat; [|done].
  pose proof (group_nodes_wf post words i) as Hg.
  destruct (group_nodes post words i) as [g e]. simpl in Hg.
  apply IH. destruct have; [by apply union_nodes_wf | done].
Qed.

Lemma query_nodes_wf post words : counters_wf (query_nodes post words).
Proof. apply or_nodes_wf, nil_wf. Qed.

Lemma query_score_bounds post d ws : forall tot cur,
  postings_wf post -> postings_int post ->
  0 <= tot <= INT_MAX ->
  (forall s, cur = Some s -> 0 <= s <= INT_MAX) ->
  tot <= query_score post ws tot cur d <= INT_MAX.
Proof.
  intros tot cur Hwf Hint. revert tot cur.
  assert (Hdef : forall cur, (forall s, cur = Some s -> 0 <= s <= INT_MAX) ->
                   0 <= default 0 cur).
  { intros [s|] Hc; simpl; [by apply Hc | lia]. }
  induction ws as [|w ws IH]; intros tot cur Htot Hcur; simpl.
  - apply add_kept_bounds; [done | by apply Hdef].
  - pose proof (add_kept_bounds tot (default 0 cur) Htot (Hdef cur Hcur)).
    destruct (String.eqb w "or").
    { specialize (IH (add_kept tot (default 0 cur)) None ltac:(lia)
                     ltac:(done)). lia. }
    destruct (String.eqb w "and"); [by apply IH|].
    apply IH; [done|]. intros s [= <-].
    pose proof (term_count_nonneg post w d Hwf).
    pose proof (term_count_le post w d Hint).
    destruct cur as [s|]; [|lia]. specialize (Hcur s eq_refl). lia.
Qed.

Lemma query_sum_nonneg post d ws : forall cur,
  postings_wf post -> (forall s, cur = Some s -> 0 <= s) ->
  0 <= query_sum post ws cur d.
Proof.
  intros cur Hwf. revert cur.
  assert (Hdef : forall cur : option Z, (forall s, cur = Some s -> 0 <= s) ->
                   0 <= default 0 cur).
  { intros [s|] Hc; simpl; [by apply Hc | lia]. }
  induction ws as [|w ws IH]; intros cur Hcur; simpl; [by apply Hdef|].
  destruct (String.eqb w "or").
  { pose proof (Hdef cur Hcur). specialize (IH None ltac:(done)). lia. }
  destruct (String.eqb w "and"); [by apply IH|].
  apply IH. intros s [= <-]. pose proof (term_count_nonneg post w d Hwf).
  destruct cur as [s|]; [|lia]. specialize (Hcur s eq_refl). lia.
Qed.

(** While the sum stays in the range of [int], no addition is refused. *)
Lemma query_score_sum post d ws : forall tot cur,
  postings_wf post -> 0 <= tot ->
  (forall s, cur = Some s -> 0 <= s) ->
  tot + query_sum post ws cur d <= INT_MAX ->
  query_score post ws tot cur d = tot + query_sum post ws cur d.
Proof.
  intros tot cur Hwf. revert tot cur.
  assert (Hdef : forall cur : option Z, (forall s, cur = Some s -> 0 <= s) ->
                   0 <= default 0 cur).
  { intros [s|] Hc; simpl; [by apply Hc | lia]. }
  induction ws as [|w ws IH]; intros tot cur Htot Hcur Hle; simpl in *.
  - unfold add_kept. destruct (Z.leb_spec (tot + default 0 cur) INT_MAX); lia.
  - destruct (String.eqb w "or").
    { pose proof (Hdef cur Hcur).
      pose proof (query_sum_nonneg post d ws None Hwf ltac:(done)).
      assert (E : add_kept tot (default 0 cur) = tot + default 0 cur).
      { unfold add_kept.
        destruct (Z.leb_spec (tot + default 0 cur) INT_MAX); lia. }
      rewrite E, IH; [lia | lia | done | lia]. }
    destruct (String.eqb w "and"); [by apply IH|].
    apply IH; [done | | done]. intros s [= <-].
    pose proof (term_count_nonneg post w d Hwf).
    destruct cur as [s|]; [|lia]. specialize (Hcur s eq_refl). lia.
Qed.

Lemma query_score_or post d q2 q1 : forall tot cur,
  query_score post (q1 ++ "or"%string :: q2) tot cur d
  = query_score post q2 (query_score post q1 tot cur d) None d.
Proof.
  induction q1 as [|w q1 IH]; intros tot cur; [done|]. cbn [app query_score].
  destruct (String.eqb w "or"); [by rewrite IH|].
  destruct (String.eqb w "and"); by apply IH.
Qed.


(** A score added before the groups or after them: the same, while the
    result stays in the range of [int]. *)
Lemma query_score_shift post d ws : forall a tot cur,
  postings_wf post -> postings_int post ->
  0 <= a -> 0 <= tot <= INT_MAX ->
  (forall s, cur = Some s -> 0 <= s <= INT_MAX) ->
  a + query_score post ws tot cur d <= INT_MAX ->
  query_score post ws (a + tot) cur d = a + query_score post ws tot cur d.
Proof.
  intros a tot cur Hwf Hint Ha. revert tot cur.
  assert (Hdef : forall cur, (forall s, cur = Some s -> 0 <= s <= INT_MAX) ->
                   0 <= default 0 cur).
  { intros [s|] Hc; simpl; [by apply Hc | lia]. }
  induction ws as [|w ws IH]; intros tot cur Htot Hcur Hle; simpl in *.
  - pose proof (Hdef cur Hcur). unfold add_kept in *.
    destruct (Z.leb_spec (tot + default 0 cur) INT_MAX);
      destruct (Z.leb_spec (a + tot + default 0 cur) INT_MAX); lia.
  - destruct (String.eqb w "or").
    { pose proof (Hdef cur Hcur) as Hg.
      pose proof (add_kept_bounds tot (default 0 cur) Htot Hg) as Hb.
      pose proof (query_score_bounds post d ws (add_kept tot (default 0 cur))
                    None Hwf Hint ltac:(lia) ltac:(done)) as Hq.
      assert (E : add_kept (a + tot) (default 0 cur)
                  = a + add_kept tot (default 0 cur)).
      { unfold add_kept in *.
        destruct (Z.leb_spec (tot + default 0 cur) INT_MAX);
          destruct (Z.leb_spec (a + tot + default 0 cur) INT_MAX); lia. }
      rewrite E. apply IH; [lia | done | done]. }
    destruct (String.eqb w "and"); [by apply IH|].
    apply IH; [done | | done]. intros s [= <-].
    pose proof (term_count_nonneg post w d Hwf).
    pose proof (term_count_le post w d Hint).
    destruct cur as [s|]; [|lia]. specialize (Hcur s eq_refl). lia.
Qed.

(** *** Words of one group *)

Lemma group_score_and post d q2 q1 : forall cur,
  group_score post (q1 ++ "and"%string :: q2) cur d
  = group_score post (q1 ++ q2) cur d.
Proof.
  induction q1 as [|w q1 IH]; intros cur; [done|]. cbn [app group_score].
  destruct (String.eqb w "or"); [done|].
  destruct (String.eqb w "and"); by apply IH.
Qed.

Lemma group_score_skip post d q2 q1 : forall cur,
  "or"%string ∉ q1 -> has_term q1 = false ->
  group_score post (q1 ++ q2) cur d = group_score post q2 cur d.
Proof.
  induction q1 as [|w q1 IH]; intros cur Hor Ht; [done|].
  apply not_elem_of_cons in Hor as [Hne Hor].
  cbn [has_term existsb] in Ht. apply orb_false_iff in Ht as [Hw Ht].
  apply negb_false_iff in Hw. unfold is_operator in Hw.
  cbn [app group_score].
  destruct (String.eqb_spec w "or"); [congruence|].
  rewrite orb_false_r in Hw. rewrite Hw. by apply IH.
Qed.

Lemma group_score_some post d q2 q1 : forall s,
  "or"%string ∉ q1 ->
  group_score post (q1 ++ q2) (Some s) d
  = group_score post q2 (Some (group_score post q1 (Some s) d)) d.
Proof.
  induction q1 as [|w q1 IH]; intros s Hor; [done|].
  apply not_elem_of_cons in Hor as [Hne Hor]. cbn [app group_score].
  destruct (String.eqb_spec w "or"); [congruence|].
  destruct (String.eqb w "and"); by apply IH.
Qed.

Lemma group_score_none post d q2 q1 :
  "or"%string ∉ q1 -> has_term q1 = true ->
  group_score post (q1 ++ q2) None d
  = group_score post q2 (Some (group_score post q1 None d)) d.
Proof.
  induction q1 as [|w q1 IH]; intros Hor Ht; [done|].
  apply not_elem_of_cons in Hor as [Hne Hor]. cbn [app group_score].
  cbn [has_term existsb] in Ht. unfold is_operator in Ht.
  destruct (String.eqb_spec w "or"); [congruence|]. rewrite orb_false_r in Ht.
  destruct (String.eqb w "and"); [by apply IH|].
  by apply group_score_some.
Qed.

Lemma group_score_min post d q : forall s,
  "or"%string ∉ q -> has_term q = true ->
  group_score post q (Some s) d = Z.min s (group_score post q None d).
Proof.
  induction q as [|w q IH]; intros s Hor Ht; [done|].
  apply not_elem_of_cons in Hor as [Hne Hor]. cbn [group_score].
  cbn [has_term existsb] in Ht. unfold is_operator in Ht.
  destruct (String.eqb_spec w "or"); [congruence|]. rewrite orb_false_r in Ht.
  destruct (String.eqb w "and"); [by apply IH|].
  destruct (has_term q) eqn:Hq.
  - rewrite !IH by done. lia.
  - pose proof (group_score_skip post d [] q (Some (Z.min s (term_count post w d)))
                  Hor Hq) as E1.
    pose proof (group_score_skip post d [] q (Some (term_count post w d))
                  Hor Hq) as E2.
    rewrite app_nil_r in E1, E2. by rewrite E1, E2.
Qed.

Lemma group_score_app post d q1 q2 :
  "or"%string ∉ q1 -> "or"%string ∉ q2 ->
  has_term q1 = true -> has_term q2 = true ->
  group_score post (q1 ++ q2) None d
  = Z.min (group_score post q1 None d) (group_score post q2 None d).
Proof.
  intros Ho1 Ho2 Ht1 Ht2.
  by rewrite group_score_none, group_score_min.
Qed.

Lemma group_score_swap post d q1 q2 :
  "or"%string ∉ q1 -> "or"%string ∉ q2 ->
  group_score post (q1 ++ q2) None d = group_score post (q2 ++ q1) None d.
Proof.
  intros Ho1 Ho2.
  assert (Hno : forall q cur, "or"%string ∉ q -> has_term q = false ->
                  group_score post q cur d = default 0 cur).
  { intros q cur Ho Ht.
    pose proof (group_score_skip post d [] q cur Ho Ht) as E.
    by rewrite app_nil_r in E. }
  destruct (has_term q1) eqn:Ht1, (has_term q2) eqn:Ht2.
  - rewrite !group_score_app by done. lia.
  - rewrite group_score_none, (group_score_skip _ _ q1 q2), (Hno q2) by done.
    done.
  - rewrite (group_score_skip _ _ q2 q1), group_score_none, (Hno q1) by done.
    done.
  - rewrite !group_score_skip, (Hno q1), (Hno q2) by done. done.
Qed.

Lemma group_score_zero post d ws :
  postings_wf post -> "or"%string ∉ ws -> group_score post ws (Some 0) d = 0.
Proof.
  intros Hp. induction ws as [|w ws IH]; intros Hor; simpl; [done|].
  apply not_elem_of_cons in Hor as [Hne Hor].
  destruct (String.eqb_spec w "or"); [congruence|].
  destruct (String.eqb w "and"); [by apply IH|].
  pose proof (term_count_nonneg post w d Hp).
  replace (Z.min 0 (term_count post w d)) with 0 by lia. by apply IH.
Qed.

Lemma group_score_unknown post d w ws : forall cur,
  postings_wf post -> "or"%string ∉ ws ->
  w ∈ ws -> is_operator w = false -> post w = None ->
  (forall s, cur = Some s -> 0 <= s) ->
  group_score post ws cur d = 0.
Proof.
  intros cur Hp Hor Hin Hop Hw. revert cur Hor Hin.
  unfold is_operator in Hop. apply orb_false_iff in Hop as [Hand _].
  induction ws as [|w0 ws IH]; intros cur Hor Hin Hcur; simpl.
  - by apply elem_of_nil in Hin.
  - apply not_elem_of_cons in Hor as [Hne Hor].
    destruct (String.eqb_spec w0 "or"); [congruence|].
    apply elem_of_cons in Hin as [<-|Hin].
    + rewrite Hand. unfold term_count. rewrite Hw.
      replace (match cur with Some s => Z.min s 0 | None => 0 end) with 0.
      * by apply group_score_zero.
      * destruct cur as [s|]; [|done]. specialize (Hcur s eq_refl). lia.
    + destruct (String.eqb w0 "and"); [by apply IH|].
      apply IH; [done|done|]. intros s [= <-].
      pose proof (term_count_nonneg post w0 d Hp).
      destruct cur as [s|]; [|done]. specialize (Hcur s eq_refl). lia.
Qed.

(** X2.  With the index loaded, the counters [evaluate_query] returns is a
    live object in which no document appears twice and no docID or score is
    negative. *)
Theorem evaluate_query_wf (index : index_t) (words : list string) (h : heap) :
  index_loaded h index ->
  exists c,
    deref (evaluate_query (Some index) (Some words) h).1
          (evaluate_query (Some index) (Some words) h).2 = Some c
    /\ NoDup (keys c)
    /\ Forall (fun kc => 0 <= kc.1 /\ 0 <= kc.2) c.
Proof.
  intros Hl.
  destruct (evaluate_query_refines h index Hl words []) as (ext & r & E & _ & Hr).
  rewrite app_nil_r in E. rewrite E. cbn [fst snd].
  exists (query_nodes (postings h index) words).
  split; [by apply deref_live|].
  destruct (query_nodes_wf (postings h index) words) as [Hnd Hnn]. done.
Qed.

Lemma evaluate_query_wf_witness :
  exists c,
    deref (evaluate_query (Some example_index) (Some ["a"; "or"; "b"]%string)
             example_heap).1
          (evaluate_query (Some example_index) (Some ["a"; "or"; "b"]%string)
             example_heap).2 = Some c
    /\ NoDup (keys c).
Proof.
  destruct (evaluate_query_wf example_index ["a"; "or"; "b"]%string example_heap
              example_index_loaded) as (c & Hc & Hnd & _).
  by exists c.
Defined.

(** X3.  The score [evaluate_query] gives a document, for an index whose
    counts are in the range of [int]: the score of each OR-separated group
    is the minimum of the counts of the group's words for the document (a
    word that is not in the index counts 0, and so does a group without a
    word), and the groups' scores are added from left to right, an addition
    that would pass [INT_MAX] being refused ([query_score]).  When the sum
    of the groups' scores ([query_sum]) is within the range of [int], the
    score is that sum. *)
Theorem evaluate_query_score (index : index_t) (words : list string)
    (h : heap) (d : Z) :
  index_loaded h index ->
  postings_wf (postings h index) ->
  postings_int (postings h index) ->
  let score :=
    counters_get (evaluate_query (Some index) (Some words) h).1
                 (evaluate_query (Some index) (Some words) h).2 d in
  score = query_score (postings h index) words 0 None d
  /\ (query_sum (postings h index) words None d <= INT_MAX ->
      score = query_sum (postings h index) words None d).
Proof.
  intros Hl Hwf Hint score. subst score.
  rewrite evaluate_query_sum by done. split; [done|]. intros Hle.
  rewrite query_score_sum; [lia | done | lia | done | lia].
Qed.

Lemma evaluate_query_score_witness :
  counters_get
    (evaluate_query (Some example_index)
       (Some ["a"; "and"; "b"; "or"; "b"]%string) example_heap).1
    (evaluate_query (Some example_index)
       (Some ["a"; "and"; "b"; "or"; "b"]%string) example_heap).2 1
  = 5.
Proof.
  apply (proj2 (evaluate_query_score example_index
            ["a"; "and"; "b"; "or"; "b"]%string example_heap 1
            example_index_loaded example_postings_wf example_postings_int)).
  by vm_compute.
Defined.
(** X4.  Queries compose.  For an index whose counts are in the range of
    [int]: the score of a document for "q1 or q2" is the sum of its scores
    for q1 and for q2, when that sum is in the range of [int]; and for two
    queries without "or" that each hold a word, the score for q1 followed by
    q2, with or without "and" in between, is the minimum of the two
    scores. *)
Theorem or_adds_and_takes_min (index : index_t) (q1 q2 : list string)
    (h : heap) (d : Z) :
  index_loaded h index ->
  postings_wf (postings h index) ->
  postings_int (postings h index) ->
  let score q :=
    counters_get (evaluate_query (Some index) (Some q) h).1
                 (evaluate_query (Some index) (Some q) h).2 d in
  (score q1 + score q2 <= INT_MAX ->
   score (q1 ++ "or"%string :: q2) = score q1 + score q2)
  /\ ("or"%string ∉ q1 -> "or"%string ∉ q2 ->
      has_term q1 = true -> has_term q2 = true ->
      score (q1 ++ q2) = Z.min (score q1) (score q2)
      /\ score (q1 ++ "and"%string :: q2) = Z.min (score q1) (score q2)).
Proof.
  intros Hl Hwf Hint score. subst score. cbn beta. split.
  - rewrite !(evaluate_query_sum index _ h d Hl) by done.
    intros Hle. rewrite query_score_or.
    pose proof (query_score_bounds (postings h index) d q1 0 None Hwf Hint
                  ltac:(unfold INT_MAX; lia) ltac:(done)) as H1.
    pose proof (query_score_shift (postings h index) d q2
                  (query_score (postings h index) q1 0 None d) 0 None
                  Hwf Hint ltac:(lia) ltac:(unfold INT_MAX; lia) ltac:(done)
                  Hle) as E.
    by rewrite Z.add_0_r in E.
  - intros Ho1 Ho2 Ht1 Ht2.
    assert (Ho : "or"%string ∉ q1 ++ q2) by (rewrite elem_of_app; tauto).
    assert (Ho' : "or"%string ∉ q1 ++ "and"%string :: q2).
    { rewrite elem_of_app, elem_of_cons. intros [?|[?|?]]; done. }
    rewrite !(evaluate_query_group index _ h d Hl) by done.
    rewrite group_score_and. split; by apply group_score_app.
Qed.

Lemma or_adds_and_takes_min_witness :
  counters_get
    (evaluate_query (Some example_index) (Some ["a"; "or"; "b"]%string)
       example_heap).1
    (evaluate_query (Some example_index) (Some ["a"; "or"; "b"]%string)
       example_heap).2 1
  = counters_get
      (evaluate_query (Some example_index) (Some ["a"]%string) example_heap).1
      (evaluate_query (Some example_index) (Some ["a"]%string) example_heap).2 1
    + counters_get
        (evaluate_query (Some example_index) (Some ["b"]%string) example_heap).1
        (evaluate_query (Some example_index) (Some ["b"]%string) example_heap).2 1.
Proof.
  apply (proj1 (or_adds_and_takes_min example_index ["a"]%string ["b"]%string
                  example_heap 1 example_index_loaded example_postings_wf
                  example_postings_int)).
  by vm_compute.
Defined.

(** X5.  The order of the operands does not matter to the scores, for an
    index whose counts are in the range of [int]: "q1 or q2" scores a
    document as "q2 or q1" does when the sum of its scores for q1 and q2 is
    in the range of [int], and for queries without "or", q1 followed by q2
    scores as q2 followed by q1, with or without "and" in between. *)
Theorem score_commutes (index : index_t) (q1 q2 : list string) (h : heap)
    (d : Z) :
  index_loaded h index ->
  postings_wf (postings h index) ->
  postings_int (postings h index) ->
  let score q :=
    counters_get (evaluate_query (Some index) (Some q) h).1
                 (evaluate_query (Some index) (Some q) h).2 d in
  (score q1 + score q2 <= INT_MAX ->
   score (q1 ++ "or"%string :: q2) = score (q2 ++ "or"%string :: q1))
  /\ ("or"%string ∉ q1 -> "or"%string ∉ q2 ->
      score (q1 ++ q2) = score (q2 ++ q1)
      /\ score (q1 ++ "and"%string :: q2) = score (q2 ++ "and"%string :: q1)).
Proof.
  intros Hl Hwf Hint score. subst score. cbn beta. split.
  - rewrite !(evaluate_query_sum index _ h d Hl) by done.
    intros Hle. rewrite !query_score_or.
    pose proof (query_score_bounds (postings h index) d q1 0 None Hwf Hint
                  ltac:(unfold INT_MAX; lia) ltac:(done)) as H1.
    pose proof (query_score_bounds (postings h index) d q2 0 None Hwf Hint
                  ltac:(unfold INT_MAX; lia) ltac:(done)) as H2.
    pose proof (query_score_shift (postings h index) d q2
                  (query_score (postings h index) q1 0 None d) 0 None
                  Hwf Hint ltac:(lia) ltac:(unfold INT_MAX; lia) ltac:(done)
                  Hle) as E1.
    pose proof (query_score_shift (postings h index) d q1
                  (query_score (postings h index) q2 0 None d) 0 None
                  Hwf Hint ltac:(lia) ltac:(unfold INT_MAX; lia) ltac:(done)
                  ltac:(lia)) as E2.
    rewrite Z.add_0_r in E1, E2. rewrite E1, E2. lia.
  - intros Ho1 Ho2.
    assert (Ho : forall a b : list string,
              "or"%string ∉ a -> "or"%string ∉ b -> "or"%string ∉ a ++ b)
      by (intros a b; rewrite elem_of_app; tauto).
    assert (Ho' : forall a b : list string,
              "or"%string ∉ a -> "or"%string ∉ b ->
              "or"%string ∉ a ++ "and"%string :: b).
    { intros a b ? ?. rewrite elem_of_app, elem_of_cons.
      intros [?|[?|?]]; done. }
    rewrite !(evaluate_query_group index _ h d Hl) by auto.
    rewrite !group_score_and. split; by apply group_score_swap.
Qed.

Lemma score_commutes_witness :
  counters_get
    (evaluate_query (Some example_index) (Some ["a"; "or"; "b"]%string)
       example_heap).1
    (evaluate_query (Some example_index) (Some ["a"; "or"; "b"]%string)
       example_heap).2 2
  = counters_get
      (evaluate_query (Some example_index) (Some ["b"; "or"; "a"]%string)
         example_heap).1
      (evaluate_query (Some example_index) (Some ["b"; "or"; "a"]%string)
         example_heap).2 2.
Proof.
  apply (proj1 (score_commutes example_index ["a"]%string ["b"]%string
                  example_heap 2 example_index_loaded example_postings_wf
                  example_postings_int)).
  by vm_compute.
Defined.

Lemma node_get_in c k n : NoDup (keys c) -> (k, n) ∈ c -> node_get c k = n.
Proof.
  induction c as [|[k0 n0] c IH]; simpl.
  - by intros _ ?%elem_of_nil.
  - unfold keys. simpl. intros [Hnin Hnd]%NoDup_cons Hin.
    apply elem_of_cons in Hin as [[= -> ->]|Hin]; [by rewrite Z.eqb_refl|].
    destruct (Z.eqb_spec k0 k) as [->|]; [|by apply IH].
    exfalso. apply Hnin. apply list_elem_of_fmap. by exists (k, n).
Qed.

Lemma positive_nodes_none c :
  NoDup (keys c) -> (forall d, node_get c d <= 0) -> positive_nodes c = [].
Proof.
  intros Hnd Hz. unfold positive_nodes.
  destruct (filter (fun kc => 0 < kc.2) c) as [|[k n] l] eqn:Hf; [done|].
  assert (Hin : (k, n) ∈ filter (fun kc => 0 < kc.2) c) by (rewrite Hf; left).
  apply list_elem_of_filter in Hin as [Hn Hin]. simpl in Hn.
  specialize (Hz k). rewrite (node_get_in c k n Hnd Hin) in Hz. lia.
Qed.

(** X6.  A query without "or" that holds a word the index does not know
    matches no document: [rank_and_print] on its result prints
    "No documents match." *)
Theorem unknown_word_no_match (index : index_t) (words : list string)
    (w : string) (h : heap) :
  index_loaded h index ->
  postings_wf (postings h index) ->
  "or"%string ∉ words ->
  w ∈ words -> is_operator w = false -> index_find index w = None ->
  rank_and_print (evaluate_query (Some index) (Some words) h).1
                 (evaluate_query (Some index) (Some words) h).2
  = NoDocumentsMatch.
Proof.
  intros Hl Hwf Hor Hin Hop Hw.
  destruct (evaluate_query_refines h index Hl words []) as (ext & r & E & _ & Hr).
  rewrite app_nil_r in E. rewrite E. cbn [fst snd].
  rewrite (rank_and_print_live _ _ _ Hr). unfold rank_nodes.
  rewrite positive_nodes_none; [done | apply query_nodes_wf |].
  intros d. rewrite query_nodes_first, group_nodes_score by done.
  rewrite drop_0.
  rewrite (group_score_unknown (postings h index) d w words None); try done.
  unfold postings. by rewrite Hw.
Qed.

Lemma unknown_word_no_match_witness :
  rank_and_print
    (evaluate_query (Some example_index) (Some ["a"; "zzz"]%string) example_heap).1
    (evaluate_query (Some example_index) (Some ["a"; "zzz"]%string) example_heap).2
  = NoDocumentsMatch.
Proof.
  apply (unknown_word_no_match example_index ["a"; "zzz"]%string "zzz" example_heap
           example_index_loaded example_postings_wf).
  - intros Hin. repeat (apply elem_of_cons in Hin as [Hin|Hin]; [done|]).
    by apply elem_of_nil in Hin.
  - apply elem_of_cons. right. apply elem_of_cons. by left.
  - reflexivity.
  - reflexivity.
Defined.

(** ** OR-combination of the groups *)



(** A sum that does not fit an [int]: with the count 2147483647 for "a" and
    1 for "b" in document 1, "a or b" keeps 2147483647, the sum being
    refused, and "b or a" keeps 1. *)
Example or_sum_refused :
  counters_get
    (evaluate_query (Some example_index) (Some ["a"; "or"; "b"]%string)
       [Some [(1, 2147483647)]; Some [(1, 1)]]).1
    (evaluate_query (Some example_index) (Some ["a"; "or"; "b"]%string)
       [Some [(1, 2147483647)]; Some [(1, 1)]]).2 1 = 2147483647
  /\ counters_get
       (evaluate_query (Some example_index) (Some ["b"; "or"; "a"]%string)
          [Some [(1, 2147483647)]; Some [(1, 1)]]).1
       (evaluate_query (Some example_index) (Some ["b"; "or"; "a"]%string)
          [Some [(1, 2147483647)]; Some [(1, 1)]]).2 1 = 1.
Proof. split; vm_compute; reflexivity. Qed.

(** ** The words of an AND-group *)

Lemma andseq_nodes_app post tl ws : forall i j k acc,
  "or"%string ∉ ws ->
  (andseq_nodes post (ws ++ tl) i acc).1
  = (andseq_nodes post tl j (andseq_nodes post ws k acc).1).1.
Proof.
  induction ws as [|w ws IH]; intros i j k acc Hor.
  - simpl. by rewrite (andseq_nodes_position post tl i),
                      (andseq_nodes_position post tl j).
  - apply not_elem_of_cons in Hor as [Hne Hor]. cbn [app andseq_nodes].
    destruct (String.eqb_spec w "or"); [congruence|].
    destruct (String.eqb w "and"); by apply IH.
Qed.

Lemma andseq_nodes_no_term post ws : forall i acc,
  "or"%string ∉ ws -> has_term ws = false ->
  (andseq_nodes post ws i acc).1 = acc.
Proof.
  induction ws as [|w ws IH]; intros i acc Hor Ht; [done|].
  apply not_elem_of_cons in Hor as [Hne Hor].
  cbn [has_term existsb] in Ht. apply orb_false_iff in Ht as [Hw Ht].
  apply negb_false_iff in Hw. unfold is_operator in Hw. cbn [andseq_nodes].
  destruct (String.eqb_spec w "or"); [congruence|].
  rewrite orb_false_r in Hw. rewrite Hw. by apply IH.
Qed.

Lemma andseq_nodes_some post ws : forall i acc,
  "or"%string ∉ ws -> has_term ws = true \/ is_Some acc ->
  is_Some (andseq_nodes post ws i acc).1.
Proof.
  induction ws as [|w ws IH]; intros i acc Hor Ht.
  - destruct Ht as [Ht|Ht]; [done | exact Ht].
  - apply not_elem_of_cons in Hor as [Hne Hor]. cbn [andseq_nodes].
    cbn [has_term existsb] in Ht. unfold is_operator in Ht.
    destruct (String.eqb_spec w "or"); [congruence|]. rewrite orb_false_r in Ht.
    destruct (String.eqb w "and"); simpl in Ht; [by apply IH|].
    apply IH; [done|]. right. by eexists.
Qed.

(** The counters of a group that ends with the word [w]. *)
Lemma group_nodes_last post words start ws w rest :
  drop start words = ws ++ w :: rest ->
  "or"%string ∉ ws -> is_operator w = false ->
  (rest = [] \/ exists r, rest = "or"%string :: r) ->
  (group_nodes post words start).1
  = and_nodes post w (andseq_nodes post ws 0 None).1.
Proof.
  intros Hd Hor Hop Hrest. unfold group_nodes. rewrite Hd.
  pose proof (andseq_nodes_app post (w :: rest) ws start 0 0 None Hor) as E.
  destruct (andseq_nodes post (ws ++ w :: rest) start None) as [acc e].
  cbn [fst] in *. subst acc. cbn [andseq_nodes].
  unfold is_operator in Hop. apply orb_false_iff in Hop as [Hand Hw_or].
  rewrite Hw_or, Hand.
  destruct Hrest as [->|[r ->]]; done.
Qed.

(** C1.  The update of the accumulator of an AND-group by its words, read
    off the counters [evaluate_andsequence] returns, with the index loaded
    and its counters well formed.  The group starts at [start] and ends with
    the word [w], after the words [ws].  When [w] is the first word of the
    group, the result holds the count of [w] for every document.  When [w]
    comes after other words, the result holds the documents the accumulator
    held after [ws], none removed, and every document has the score 0 when
    [w] is not in the index, and otherwise the minimum of its score in the
    accumulator and of the count of [w] for it, that count being 0 for a
    document the counters of [w] does not hold. *)
Theorem and_group_update (index : index_t) (words ws : list string)
    (w : string) (rest : list string) (start : nat) (h : heap) :
  index_loaded h index ->
  postings_wf (postings h index) ->
  drop start words = ws ++ w :: rest ->
  "or"%string ∉ ws -> is_operator w = false ->
  (rest = [] \/ exists r, rest = "or"%string :: r) ->
  let before := evaluate_andsequence index ws 0 h in
  let after := evaluate_andsequence index words start h in
  (has_term ws = false ->
     forall d, counters_get after.1.1 after.1.2 d
               = counters_get h (index_find index w) d)
  /\ (has_term ws = true ->
      exists acc acc',
        deref before.1.1 before.1.2 = Some acc
        /\ deref after.1.1 after.1.2 = Some acc'
        /\ keys acc' = keys acc
        /\ (forall d, node_get acc' d
                      = match index_find index w with
                        | None => 0
                        | Some a =>
                            Z.min (node_get acc d) (counters_get h (Some a) d)
                        end)
        /\ (forall d a post, index_find index w = Some a ->
              h !! a = Some (Some post) -> d ∉ keys post ->
              node_get acc' d = 0)).
Proof.
  intros Hl Hwf Hd Hor Hop Hrest before after. subst before after.
  pose proof (evaluate_andsequence_refines h index Hl words start []) as E.
  pose proof (evaluate_andsequence_refines h index Hl ws 0 []) as E0.
  rewrite app_nil_r in E, E0. rewrite E, E0. cbn [fst snd].
  rewrite (group_nodes_last _ words start ws w rest Hd Hor Hop Hrest).
  assert (Hcount : forall d,
            term_count (postings h index) w d
            = counters_get h (index_find index w) d).
  { intros d. unfold term_count, postings, counters_get.
    by destruct (deref h (index_find index w)). }
  split.
  - intros Ht d.
    rewrite (counters_get_live _ _ _ _ (snoc_lookup_last h _)).
    rewrite (andseq_nodes_no_term _ ws 0 None Hor Ht).
    rewrite and_nodes_score by done. apply Hcount.
  - intros Ht.
    destruct (andseq_nodes_some (postings h index) ws 0 None Hor
                (or_introl Ht)) as [acc Hacc].
    pose proof (andseq_nodes_wf (postings h index) ws 0 None ltac:(done)
                  acc Hacc) as Hawf.
    assert (Hget : forall d,
              node_get (and_nodes (postings h index) w (Some acc)) d
              = match index_find index w with
                | None => 0
                | Some a => Z.min (node_get acc d) (counters_get h (Some a) d)
                end).
    { intros d. rewrite and_nodes_score by (done || by intros c [= <-]).
      rewrite Hcount. pose proof (node_get_nonneg acc d (wf_nonneg _ Hawf)).
      destruct (index_find index w); [done|]. unfold counters_get. simpl. lia. }
    exists acc, (and_nodes (postings h index) w (Some acc)).
    unfold group_nodes. rewrite drop_0.
    destruct (andseq_nodes (postings h index) ws 0 None) as [acc0 e0].
    cbn [fst snd] in *. subst acc0. cbn [default].
    rewrite !(deref_live _ _ _ (snoc_lookup_last h _)).
    split; [done|]. split; [done|]. split; [by apply and_nodes_keys|].
    split; [done|].
    intros d a post Ha Hpost Hnin. rewrite Hget, Ha.
    rewrite (counters_get_absent h a post d Hpost Hnin).
    pose proof (node_get_nonneg acc d (wf_nonneg _ Hawf)). lia.
Qed.

(** "a b" on the example index: the accumulator holds the counters of "a",
    {1:2, 2:1}; with "b", {1:3}, document 1 gets min(2,3) = 2 and document
    2, which "b" does not hold, stays with 0. *)
Lemma and_group_update_witness :
  exists acc',
    deref (evaluate_andsequence example_index ["a"; "b"]%string 0
             example_heap).1.1
          (evaluate_andsequence example_index ["a"; "b"]%string 0
             example_heap).1.2 = Some acc'
    /\ keys acc' = [2; 1]
    /\ node_get acc' 1 = 2 /\ node_get acc' 2 = 0.
Proof.
  assert (Hor : "or"%string ∉ ["a"%string]).
  { intros Hin. apply elem_of_cons in Hin as [Hin|Hin]; [done|].
    by apply elem_of_nil in Hin. }
  destruct (and_group_update example_index ["a"; "b"]%string ["a"]%string "b"
              [] 0 example_heap example_index_loaded example_postings_wf
              eq_refl Hor eq_refl (or_introl eq_refl)) as [_ Hlater].
  destruct (Hlater eq_refl) as (acc & acc' & Hacc & Hacc' & Hkeys & Hget & _).
  vm_compute in Hacc. injection Hacc as <-.
  exists acc'. split; [exact Hacc'|]. split; [exact Hkeys|].
  split; [rewrite (Hget 1) | rewrite (Hget 2)]; reflexivity.
Defined.

(** ** The heap after the query loop *)

Lemma length_one_live k c m : length (one_live k c m) = (k + S m)%nat.
Proof. unfold one_live. rewrite length_app, length_replicate. simpl.
  by rewrite length_replicate. Qed.

Lemma lookup_one_live (h : heap) k c m :
  (h ++ one_live k c m) !! (length h + k)%nat = Some (Some c).
Proof.
  unfold one_live. rewrite lookup_app_r by lia.
  replace (length h + k - length h)%nat with k by lia.
  rewrite lookup_app_r by (rewrite length_replicate; lia).
  by rewrite length_replicate, Nat.sub_diag.
Qed.

Lemma insert_one_live (h : heap) k c m x :
  <[(length h + k)%nat := x]> (h ++ one_live k c m)
  = h ++ replicate k None ++ x :: replicate m None.
Proof.
  unfold one_live. rewrite insert_app_r_alt by lia.
  replace (length h + k - length h)%nat with k by lia.
  rewrite insert_app_r_alt by (rewrite length_replicate; lia).
  by rewrite length_replicate, Nat.sub_diag.
Qed.

Lemma replicate_snoc {A} n (x : A) : replicate n x ++ [x] = replicate (S n) x.
Proof. induction n as [|n IH]; simpl; [done | by rewrite IH]. Qed.

Lemma or_loop_one_live (h : heap) (index : index_t) words fuel :
  index_loaded h index ->
  forall i k acc m have,
  exists k' c' m',
    or_loop fuel index words i (Some (length h + k)%nat) have (h ++ one_live k acc m)
    = (h ++ one_live k' c' m', Some (length h + k')%nat).
Proof.
  intros Hl. induction fuel as [|fuel IH]; intros i k acc m have; simpl.
  - by exists k, acc, m.
  - destruct (i <? length words)%nat; [|by exists k, acc, m].
    rewrite (evaluate_andsequence_refines h index Hl).
    destruct (group_nodes (postings h index) words i) as [g e]. cbn [fst snd].
    set (i' := if (e <? length words)%nat && (word_at words e =? "or")%string
               then S e else e).
    assert (Hlen : length (h ++ one_live k acc m) = (length h + (k + S m))%nat)
      by (by rewrite length_app, length_one_live).
    destruct have; unfold or_step.
    + rewrite (counters_union_live _ (length h + k)%nat _ acc g);
        [| rewrite lookup_app_l by (rewrite Hlen; lia); apply lookup_one_live
         | apply snoc_lookup_last].
      cbn [counters_delete].
      rewrite insert_app_l by (rewrite Hlen; lia).
      rewrite insert_one_live.
      replace (length (h ++ one_live k acc m))
        with (length (h ++ replicate k None ++ Some (union_nodes acc g) :: replicate m None)).
      2:{ rewrite Hlen, !length_app, !length_replicate. simpl.
          rewrite length_replicate. lia. }
      rewrite snoc_insert_last.
      replace ((h ++ replicate k None ++ Some (union_nodes acc g) :: replicate m None) ++ [None])
        with (h ++ one_live k (union_nodes acc g) (S m)).
      2:{ unfold one_live. rewrite <- !app_assoc. simpl. by rewrite replicate_snoc. }
      apply IH.
    + cbn [counters_delete]. rewrite insert_app_l by (rewrite Hlen; lia).
      rewrite insert_one_live.
      replace ((h ++ replicate k None ++ None :: replicate m None) ++ [Some g])
        with (h ++ one_live (k + S m) g 0).
      2:{ unfold one_live. rewrite <- !app_assoc. simpl. f_equal.
          rewrite replicate_add. rewrite <- app_assoc. done. }
      rewrite Hlen. apply IH.
Qed.

Lemma query_step_frees (h : heap) (index : index_t) line :
  index_loaded h index ->
  exists k, (query_step index line h).1 = h ++ replicate k None.
Proof.
  intros Hl. unfold query_step.
  destruct (tokenize_and_validate line) as [[|d] words];
    [|exists 0%nat; by rewrite app_nil_r].
  destruct words as [[|w ws]|]; try (exists 0%nat; by rewrite app_nil_r).
  unfold evaluate_query, counters_new.
  destruct (or_loop_one_live h index (w :: ws) (length (w :: ws)) Hl 0 0 [] 0 false)
    as (k & c & m & E).
  unfold one_live in E at 1. cbn [replicate app] in E. rewrite Nat.add_0_r in E.
  rewrite E. cbn [fst snd counters_delete]. rewrite insert_one_live.
  exists (k + S m)%nat. f_equal. by rewrite replicate_add.
Qed.

(** X7.  The query loop frees every counters it allocates and touches no
    other: after any sequence of lines the heap is the heap before, followed
    by freed cells only. *)
Theorem query_loop_frees_all (index : index_t) (lines : list string) (h : heap) :
  index_loaded h index ->
  exists k, (query_loop index lines h).1 = h ++ replicate k None.
Proof.
  intros Hl.
  enough (forall j, exists k,
            (query_loop index lines (h ++ replicate j None)).1
            = h ++ replicate k None) as H.
  { destruct (H 0%nat) as (k & E). simpl in E. rewrite app_nil_r in E. by exists k. }
  induction lines as [|line lines IH]; intros j; simpl; [by exists j|].
  destruct (query_step_frees (h ++ replicate j None) index line
              (index_loaded_app h _ index Hl)) as (k1 & E1).
  destruct (query_step index line (h ++ replicate j None)) as [h1 out].
  simpl in E1. subst h1. rewrite <- app_assoc, <- replicate_add.
  destruct (IH (j + k1)%nat) as (k & E).
  destruct (query_loop index lines (h ++ replicate (j + k1) None)) as [h2 outs].
  simpl in *. by exists k.
Qed.

Lemma query_loop_frees_all_witness :
  exists k,
    (query_loop example_index ["a and b"; "a or b"; "zzz"; ""]%string example_heap).1
    = example_heap ++ replicate k None.
Proof.
  apply (query_loop_frees_all example_index
           ["a and b"; "a or b"; "zzz"; ""]%string example_heap
           example_index_loaded).
Defined.

(** ** The ranked list *)

Lemma positive_nodes_ids c :
  NoDup (keys c) -> NoDup (docID <$> positive_nodes c).
Proof.
  intros Hnd. unfold positive_nodes.
  replace (docID <$> map (fun kc => {| docID := kc.1; score := kc.2 |})
                       (filter (fun kc => 0 < kc.2) c))
    with (keys (filter (fun kc => 0 < kc.2) c)).
  - assert (Hsub : keys (filter (fun kc => 0 < kc.2) c) `sublist_of` keys c)
      by (unfold keys; apply fmap_sublist, sublist_filter).
    by eapply sublist_NoDup.
  - unfold keys. induction (filter (fun kc => 0 < kc.2) c) as [|x l IH]; simpl;
      [done | by f_equal].
Qed.

Lemma positive_nodes_positive c : Forall (fun e => 0 < score e) (positive_nodes c).
Proof.
  unfold positive_nodes. apply Forall_forall. intros e Hin.
  apply list_elem_of_fmap in Hin as ([k n] & -> & Hin).
  by apply list_elem_of_filter in Hin as [? _].
Qed.

(** X8.  Whenever a line is answered with a list of matches, the list is in
    descending order of score, names no document twice, holds positive
    scores only, is not empty, and the count printed before it is its
    length. *)
Theorem answer_ranked (index : index_t) (line : string) (h : heap)
    (ws : list string) (n : Z) (docs : list docscore_t) :
  index_loaded h index ->
  (query_step index line h).2 = Answer ws (Matches n docs) ->
  Sorted by_score docs
  /\ NoDup (docID <$> docs)
  /\ Forall (fun e => 0 < score e) docs
  /\ n = Z.of_nat (length docs)
  /\ 0 < n.
Proof.
  intros Hl.
  destruct (query_step_refines h index Hl line []) as (ext & E).
  rewrite app_nil_r in E. rewrite E. cbn [snd]. unfold line_answer.
  destruct (tokenize_and_validate line) as [[|d] [[|w ws']|]]; try done.
  unfold rank_nodes. set (c := query_nodes (postings h index) (w :: ws')).
  pose proof (query_nodes_wf (postings h index) (w :: ws')) as [Hnd _].
  fold c in Hnd.
  pose proof (positive_nodes_ids c Hnd) as Hids.
  pose proof (positive_nodes_positive c) as Hpos.
  destruct (positive_nodes c) as [|e es]; [done|].
  intros [= _ <- <-].
  pose proof (qsort_perm cmp_docscore_desc (e :: es)) as Hp.
  split; [apply (qsort_sorted (e :: es))|].
  split; [by rewrite Hp|]. split; [by rewrite Hp|].
  split; [f_equal; symmetry; exact (Permutation_length Hp)|].
  cbn [length]. lia.
Qed.

Lemma answer_ranked_witness :
  Sorted by_score [{| docID := 1; score := 5 |}; {| docID := 2; score := 1 |}]
  /\ NoDup (docID <$> [{| docID := 1; score := 5 |}; {| docID := 2; score := 1 |}]).
Proof.
  destruct (answer_ranked example_index "a or b" example_heap
              ["a"; "or"; "b"]%string 2
              [{| docID := 1; score := 5 |}; {| docID := 2; score := 1 |}]
              example_index_loaded eq_refl) as (Hs & Hn & _).
  by split.
Defined.

Lemma collect_nonzero_fill c : forall pre slots,
  (length (positive_nodes c) <= length slots)%nat ->
  foldl (fun ca kc => collect_nonzero kc.1 kc.2 ca)
        {| array := pre ++ slots; index := length pre |} c
  = {| array := pre ++ positive_nodes c
                ++ drop (length (positive_nodes c)) slots;
       index := length pre + length (positive_nodes c) |}.
Proof.
  unfold positive_nodes.
  induction c as [|[k s] c IH]; intros pre slots Hm; simpl.
  - by rewrite drop_0, Nat.add_0_r.
  - rewrite filter_cons in *. simpl in *. unfold collect_nonzero at 2.
    destruct (Z.leb_spec s 0); destruct (decide (0 < s)); try lia.
    + by apply IH.
    + simpl in *. destruct slots as [|x slots]; [simpl in Hm; lia|]. simpl.
      rewrite insert_app_r_alt by lia. rewrite Nat.sub_diag. simpl.
      replace (S (length pre)) with (length (pre ++ [{| docID := k; score := s |}]))
        by (rewrite length_app; simpl; lia).
      rewrite (cons_middle _ pre), app_assoc.
      rewrite IH by (simpl in Hm; lia). rewrite length_app. simpl.
      f_equal; [by rewrite <- app_assoc | lia].
Qed.

(** X9.  The array of [rank_and_print]: [count_nonzero] counts the entries
    with a positive count, and [collect_nonzero], run on an array [docs] of
    that many slots, writes every slot, none outside, and ends with its
    index at the length; whatever the slots of [docs] held, they then hold
    the entries with a positive count in the order of the iteration. *)
Theorem docs_array_filled (h : heap) (r : loc) (c : counters_t)
    (docs : list docscore_t) :
  h !! r = Some (Some c) ->
  let n := counters_iterate h (Some r) count_nonzero 0 in
  length docs = Z.to_nat n ->
  let arg := counters_iterate h (Some r) collect_nonzero
               {| array := docs; index := 0 |} in
  n = Z.of_nat (length (positive_nodes c))
  /\ index arg = Z.to_nat n
  /\ length (array arg) = Z.to_nat n
  /\ array arg = positive_nodes c.
Proof.
  intros Hr n Hlen arg. subst arg n. unfold counters_iterate in *.
  rewrite (deref_live _ _ _ Hr), count_nonzero_fold, Z.add_0_l, Nat2Z.id in *.
  pose proof (collect_nonzero_fill c [] docs ltac:(lia)) as E.
  cbn [app length Nat.add] in E. rewrite E.
  rewrite drop_ge by lia. cbn [array index]. by rewrite app_nil_r.
Qed.

(** Counters {1:2, 2:0, 3:4} and an array of two slots that hold other
    entries. *)
Lemma docs_array_filled_witness :
  array (counters_iterate [Some [(1, 2); (2, 0); (3, 4)]] (Some 0%nat)
           collect_nonzero
           {| array := [{| docID := 7; score := 7 |};
                        {| docID := 9; score := 0 |}];
              index := 0 |})
  = [{| docID := 1; score := 2 |}; {| docID := 3; score := 4 |}].
Proof.
  exact (proj2 (proj2 (proj2
    (docs_array_filled [Some [(1, 2); (2, 0); (3, 4)]] 0 [(1, 2); (2, 0); (3, 4)]
       [{| docID := 7; score := 7 |}; {| docID := 9; score := 0 |}]
       eq_refl eq_refl)))).
Defined.

(** ** Case and echo of a line *)

Lemma char_classes c :
  isalpha (tolower c) = isalpha c
  /\ isspace (tolower c) = isspace c
  /\ tolower (tolower c) = tolower c
  /\ (islower c = true -> tolower c = c)
  /\ (isalpha c = true -> isspace c = false).
Proof.
  destruct c as [[] [] [] [] [] [] [] []]; vm_compute; repeat split; congruence.
Qed.

Lemma first_pass_lower line :
  first_pass (map_string tolower line)
  = match first_pass line with
    | inl bad => inl bad
    | inr line' => inr line'
    end.
Proof.
  induction line as [|c rest IH]; simpl; [done|].
  destruct (char_classes c) as (Ha & Hs & Ht & _).
  destruct (tolower_spec c) as (_ & Hid & _).
  rewrite Ha, Hs, Ht, IH.
  destruct (isalpha c) eqn:Hc; [by destruct (first_pass rest)|].
  rewrite (Hid eq_refl).
  destruct (isspace c); [by destruct (first_pass rest)|done].
Qed.

Lemma tokenize_lower line :
  tokenize_and_validate (map_string tolower line) = tokenize_and_validate line.
Proof.
  unfold tokenize_and_validate.
  rewrite first_pass_lower, length_map_string.
  by destruct (first_pass line).
Qed.

(** X10.  Two lines that differ only in the case of their letters are
    tokenized and validated alike, and answered alike. *)
Theorem query_ignores_case (index : index_t) (line1 line2 : string) (h : heap) :
  map_string tolower line1 = map_string tolower line2 ->
  tokenize_and_validate line1 = tokenize_and_validate line2
  /\ query_step index line1 h = query_step index line2 h.
Proof.
  intros E.
  assert (Htok : tokenize_and_validate line1 = tokenize_and_validate line2)
    by (by rewrite <- (tokenize_lower line1), E, tokenize_lower).
  split; [done|]. unfold query_step. by rewrite Htok.
Qed.

Lemma query_ignores_case_witness :
  query_step example_index "A or B" example_heap
  = query_step example_index "a OR b" example_heap.
Proof.
  exact (proj2 (query_ignores_case example_index "A or B" "a OR b" example_heap
                  eq_refl)).
Defined.

Lemma islower_isalpha c : islower c = true -> isalpha c = true.
Proof. apply tolower_spec. Qed.

Lemma consume_alpha_app w rest :
  all_chars isalpha w = true -> starts_alpha rest = false ->
  consume_alpha (w +:+ rest) = (w, rest).
Proof.
  intros Hw Hr. induction w as [|c w IH].
  - rewrite append_empty_l. destruct rest as [|c r]; [done|]. simpl in *.
    by rewrite Hr.
  - simpl in Hw. apply andb_true_iff in Hw as [Hc Hw].
    rewrite append_cons. simpl. by rewrite Hc, IH.
Qed.

Lemma starts_alpha_echo ws : starts_alpha (echo_words ws) = false.
Proof. by destruct ws. Qed.

Lemma line_tokens_echo ws : forall fuel,
  Forall is_word ws ->
  (String.length (echo_words ws) <= fuel)%nat ->
  line_tokens fuel (echo_words ws) = ws.
Proof.
  induction ws as [|w ws IH]; intros fuel Hws Hf.
  - by destruct fuel.
  - apply Forall_cons in Hws as [[Hne Hlow] Hws].
    cbn [echo_words] in *. cbn [String.length] in Hf.
    rewrite length_append in Hf.
    destruct fuel as [|fuel]; [lia|]. cbn [line_tokens skip_nonalpha].
    change (isalpha " ") with false. cbv iota.
    assert (Halpha : all_chars isalpha w = true)
      by (eapply all_chars_impl; [apply islower_isalpha | done]).
    destruct w as [|c w]; [done|]. rewrite append_cons.
    simpl in Halpha. apply andb_true_iff in Halpha as [Hc Halpha].
    cbn [skip_nonalpha]. rewrite Hc.
    pose proof (consume_alpha_app (String c w) (echo_words ws)) as Hcons.
    rewrite append_cons in Hcons. rewrite Hcons.
    + f_equal. apply IH; [done|]. simpl in Hf. lia.
    + simpl. by rewrite Hc, Halpha.
    + apply starts_alpha_echo.
Qed.

Lemma echo_words_chars ws :
  Forall is_word ws ->
  all_chars query_char (echo_words ws) = true
  /\ map_string tolower (echo_words ws) = echo_words ws.
Proof.
  induction 1 as [|w ws [_ Hlow] _ [IHq IHl]]; [done|].
  cbn [echo_words all_chars map_string].
  change (query_char " ") with true. change (tolower " ") with " "%char.
  assert (Hw : all_chars query_char (w +:+ echo_words ws) = true
               /\ map_string tolower (w +:+ echo_words ws) = w +:+ echo_words ws).
  { clear -Hlow IHq IHl. induction w as [|c w IH]; [done|].
    simpl in Hlow. apply andb_true_iff in Hlow as [Hc Hlow].
    destruct (IH Hlow) as [IH1 IH2]. rewrite append_cons. simpl.
    rewrite IH1, IH2. destruct (char_classes c) as (_ & _ & _ & Hid & _).
    rewrite (Hid Hc). unfold query_char. by rewrite (islower_isalpha c Hc). }
  destruct Hw as [-> ->]. done.
Qed.

Lemma runs_words line ws :
  alphabetic_runs line ws ->
  Forall (fun w => w <> EmptyString /\ all_chars isalpha w = true) ws.
Proof. induction 1; constructor; auto. Qed.

(** X11.  The words of a tokenized line are non-empty and of lowercase
    letters only, and the text the query loop echoes after "Query:" reads
    back as the same words with the same verdict. *)
Theorem echo_round_trip (line : string) (v : verdict) (ws : list string) :
  tokenize_and_validate line = (v, Some ws) ->
  Forall is_word ws
  /\ tokenize_and_validate (echo_words ws) = (v, Some ws).
Proof.
  intros Htok.
  destruct (all_chars query_char line) eqn:Hok.
  - rewrite (tokenize_ok line Hok) in Htok. injection Htok as Hv Hws.
    set (toks := line_tokens (String.length line) (map_string tolower line)) in *.
    assert (Hruns : alphabetic_runs (map_string tolower line) toks).
    { apply line_tokens_runs. by rewrite length_map_string. }
    assert (Hwords : Forall is_word ws).
    { rewrite <- Hws. pose proof (runs_words _ _ Hruns) as H1.
      pose proof (runs_lowercase _ _ Hruns (map_tolower_lowered line)) as H2.
      rewrite Forall_forall in H1, H2. apply Forall_forall. intros w Hin.
      split; [by apply H1 | by apply H2]. }
    split; [done|].
    destruct (echo_words_chars ws Hwords) as [Hq Hl].
    rewrite (tokenize_ok _ Hq), Hl, line_tokens_echo by done.
    by rewrite <- Hv, Hws.
  - destruct (first_pass_bad line Hok) as (bad & Hfp & _).
    unfold tokenize_and_validate in Htok. by rewrite Hfp in Htok.
Qed.

Lemma echo_round_trip_witness :
  tokenize_and_validate " hello and world"
  = (Accept, Some ["hello"; "and"; "world"]%string).
Proof.
  exact (proj2 (echo_round_trip "Hello  AND   World" Accept ["hello"; "and"; "world"]%string eq_refl)).
Defined.

(** ** The URL of a page file *)

Lemma fgets_chars_line n : forall url rest,
  no_char newline url = true -> (String.length url < n)%nat ->
  fgets_chars n (url +:+ String newline rest) = url +:+ String newline EmptyString.
Proof.
  induction n as [|n IH]; intros url rest Hnl Hlen; [lia|].
  destruct url as [|c url].
  - rewrite !append_empty_l. simpl. done.
  - rewrite !append_cons. simpl in *. unfold no_char in Hnl. simpl in Hnl.
    apply andb_true_iff in Hnl as [Hc Hnl].
    destruct (Ascii.eqb c newline); [done|]. f_equal. apply IH; [done|lia].
Qed.

Lemma c_str_id s : no_char zero s = true -> c_str s = s.
Proof.
  unfold no_char. induction s as [|c s IH]; simpl; [done|].
  intros [Hc Hs]%andb_true_iff. destruct (Ascii.eqb c zero); [done|].
  by rewrite IH.
Qed.

Lemma strip_newline_line url :
  strip_newline (url +:+ String newline EmptyString) = url.
Proof.
  induction url as [|c url IH]; [done|].
  rewrite append_cons. cbn [strip_newline]. rewrite IH.
  destruct url; by rewrite ?append_empty_l, ?append_cons.
Qed.

(** X12.  For a positive docID whose page file starts with a line of fewer
    than 1023 characters, none of them NUL, [get_url] returns that line
    without its newline. *)
Theorem get_url_first_line (fs : string -> option string) (dir : string)
    (docID : Z) (url rest : string) :
  0 < docID ->
  fs (page_path dir docID) = Some (url +:+ String newline rest) ->
  no_char newline url = true -> no_char zero url = true ->
  (String.length url < 1023)%nat ->
  get_url fs (Some dir) docID = Some url.
Proof.
  intros Hid Hfs Hnl Hz Hlen. unfold get_url.
  destruct (Z.leb_spec docID 0); [lia|]. rewrite Hfs. unfold fgets.
  destruct (url +:+ String newline rest) as [|c0 s0] eqn:Hcontent.
  { destruct url; discriminate. }
  rewrite <- Hcontent. change (1024 - 1)%nat with 1023%nat.
  rewrite fgets_chars_line by done.
  rewrite c_str_id; [by rewrite strip_newline_line|].
  unfold no_char in *. rewrite all_chars_append, Hz. done.
Qed.

Lemma get_url_first_line_witness :
  get_url example_fs (Some "pages"%string) 3 = Some "http://example.org/"%string.
Proof.
  apply (get_url_first_line example_fs "pages" 3 "http://example.org/"
           ("1" +:+ String newline "<html>"));
    [lia | reflexivity | reflexivity | reflexivity | simpl; lia].
Defined.








(** ** The command line and [main] *)



